(** * speechMaticsPOC: the live transcript accumulator of [AmbientScribe.tsx]
    and the entry guard of [extractClinicalData].

    The development embeds the TypeScript source shallowly:
    - JavaScript strings are sequences of UTF-16 code units ([list N]);
      [String.prototype.trim] removes the ECMAScript [WhiteSpace] and
      [LineTerminator] code units from both ends;
    - [undefined] / [null] are [None]; [a ?? b] is [nullish a b]; [a?.f] maps
      over the option;
    - the [for] loop of [mapTranscriptSegments] is a structurally recursive
      function over a fuel that is the number of iterations left, and it
      returns the loop index it stopped at together with the accumulators;
    - the React hook state of [useSpeechRecognition] is a record and every
      handler is a function on it. *)

From Stdlib Require Import String Ascii List ZArith NArith Lia Bool.
Import ListNotations.

(* ================================================================= *)
(** ** JavaScript values used by the component *)

Module JS.

(** A string is its sequence of UTF-16 code units. *)
Definition jsstring := list N.

(** String literals of the source (they are all ASCII). *)
Definition lit (s : string) : jsstring :=
  List.map N_of_ascii (list_ascii_of_string s).

(** U+0020, the separator of the template literals [`${a} ${b}`]. *)
Definition space : N := 32%N.

(** ECMAScript [WhiteSpace] and [LineTerminator]: what [trim] strips. *)
Definition is_white_space (c : N) : bool :=
  List.existsb (N.eqb c)
    [9; 10; 11; 12; 13; 32; 160; 5760; 8232; 8233; 8239; 8287; 12288; 65279]%N
  || (N.leb 8192 c && N.leb c 8202).

Fixpoint trimStart (s : jsstring) : jsstring :=
  match s with
  | [] => []
  | c :: rest => if is_white_space c then trimStart rest else s
  end.

Definition trimEnd (s : jsstring) : jsstring :=
  List.rev (trimStart (List.rev s)).

Definition trim (s : jsstring) : jsstring := trimEnd (trimStart s).

(** Truthiness of a string: only [''] is falsy. *)
Definition truthy (s : jsstring) : bool :=
  match s with
  | [] => false
  | _ :: _ => true
  end.

(** [a ?? b] *)
Definition nullish {A : Type} (a b : option A) : option A :=
  match a with
  | Some x => Some x
  | None => b
  end.

(** The template literal [`${a} ${b}`]. *)
Definition template_sp (a b : jsstring) : jsstring := a ++ space :: b.

(** [Array.prototype.join(' ')]: the elements with exactly one U+0020
    between neighbours.  This is the reading of "space-joined" used when a
    statement of the specification is compared with the code. *)
Fixpoint join_space (parts : list jsstring) : jsstring :=
  match parts with
  | [] => []
  | [p] => p
  | p :: rest => p ++ space :: join_space rest
  end.

(** [String.prototype.startsWith] *)
Fixpoint startsWith (s prefix : jsstring) : bool :=
  match prefix, s with
  | [], _ => true
  | _ :: _, [] => false
  | p :: prefix', c :: s' => N.eqb c p && startsWith s' prefix'
  end.

End JS.
Import JS.

(* ================================================================= *)
(** ** [AmbientScribe.tsx]: recognition events *)

Module Scribe.

(** [SpeechRecognitionAlternativeLike]; the code reads the field with
    [?.], so a missing [transcript] is modelled. *)
Record SpeechRecognitionAlternativeLike := {
  transcript : option jsstring
}.

(** [SpeechRecognitionResultLike]: [isFinal] and the indexed alternatives
    (an entry is [None] when the slot holds [undefined] or [null]). *)
Record SpeechRecognitionResultLike := {
  isFinal : bool;
  alternatives : list (option SpeechRecognitionAlternativeLike)
}.

(** [SpeechRecognitionResultListLike]: [length] is the length of the list,
    a hole is [None]. *)
Definition SpeechRecognitionResultListLike :=
  list (option SpeechRecognitionResultLike).

Record SpeechRecognitionEventLike := {
  resultIndex : Z;
  results : SpeechRecognitionResultListLike
}.

Record SpeechRecognitionErrorEventLike := {
  error_code : jsstring   (* the field [error] of the event *)
}.

(** [list.length] *)
Definition len {A : Type} (l : list A) : Z := Z.of_nat (List.length l).

(** [list[index]]: [undefined] outside [0 .. length-1] and on a hole. *)
Definition get {A : Type} (l : list (option A)) (index : Z) : option A :=
  if (index <? 0)%Z then None
  else match List.nth_error l (Z.to_nat index) with
       | Some slot => slot
       | None => None
       end.

(** [list.item(index)]: the same slot, [null] where there is none (the
    DOM method; the type requires it to be a function). *)
Definition item {A : Type} (l : list (option A)) (index : Z) : option A :=
  get l index.

Record TranscriptSegments := {
  final : jsstring;
  interim : jsstring
}.

(** [acc ? `${acc} ${text}` : text] *)
Definition extend (acc text : jsstring) : jsstring :=
  if truthy acc then template_sp acc text else text.

(** [alternative?.transcript?.trim()] *)
Definition trimmed_transcript
    (alternative : option SpeechRecognitionAlternativeLike) : option jsstring :=
  match alternative with
  | None => None
  | Some a =>
      match transcript a with
      | None => None
      | Some t => Some (trim t)
      end
  end.

(** One iteration of the loop body, for the slot [list[index]]. *)
Definition loop_body (list : SpeechRecognitionResultListLike) (index : Z)
    (acc : TranscriptSegments) : TranscriptSegments :=
  match nullish (get list index) (item list index) with
  | None => acc                                         (* continue *)
  | Some result =>
      let alternative :=
        nullish (get (alternatives result) 0) (item (alternatives result) 0) in
      match trimmed_transcript alternative with
      | None => acc                                     (* continue *)
      | Some text =>
          if truthy text then
            if isFinal result
            then {| final := extend (final acc) text; interim := interim acc |}
            else {| final := final acc; interim := extend (interim acc) text |}
          else acc                                      (* continue *)
      end
  end.

(** [for (let index = startIndex; index < list.length; index += 1)]:
    the result is the index at which the loop stopped and the
    accumulators; with no fuel left it stops where it is. *)
Fixpoint for_loop (fuel : nat) (list : SpeechRecognitionResultListLike)
    (index : Z) (acc : TranscriptSegments) {struct fuel}
    : Z * TranscriptSegments :=
  match fuel with
  | O => (index, acc)
  | S fuel' =>
      if (index <? len list)%Z
      then for_loop fuel' list (index + 1)%Z (loop_body list index acc)
      else (index, acc)
  end.

(** The number of iterations the loop makes from [startIndex]. *)
Definition iterations (list : SpeechRecognitionResultListLike)
    (startIndex : Z) : nat :=
  Z.to_nat (len list - startIndex).

Definition run_loop (list : SpeechRecognitionResultListLike)
    (startIndex : Z) : Z * TranscriptSegments :=
  for_loop (iterations list startIndex) list startIndex
           {| final := []; interim := [] |}.

Definition mapTranscriptSegments (list : SpeechRecognitionResultListLike)
    (startIndex : Z) : TranscriptSegments :=
  snd (run_loop list startIndex).

(* --------------------------------------------------------------- *)
(** *** The hook [useSpeechRecognition] *)

(** The configuration the effect writes on the engine object. *)
Record MutableRecognition := {
  continuous : bool;
  interimResults : bool;
  lang : jsstring
}.

(** The two global names a recognition constructor can be found under. *)
Inductive RecognitionConstructor := StandardCtor | WebkitCtor.

Record ScopedWindow := {
  SpeechRecognition : option RecognitionConstructor;
  webkitSpeechRecognition : option RecognitionConstructor
}.

(** [window] is [None] when [typeof window === 'undefined']. *)
Definition getRecognitionConstructor (window : option ScopedWindow)
    : option RecognitionConstructor :=
  match window with
  | None => None
  | Some scopedWindow =>
      nullish (nullish (SpeechRecognition scopedWindow)
                       (webkitSpeechRecognition scopedWindow)) None
  end.

(** A value caught by [catch]: an [Error] with its message, or anything
    else. *)
Inductive Thrown :=
| ThrownError (message : jsstring)
| ThrownOther.

(** The ref and the four [useState] cells. *)
Record HookState := {
  recognitionRef : option MutableRecognition;
  isListening : bool;
  error : option jsstring;
  interimTranscript : jsstring;
  finalTranscript : jsstring
}.

Definition setIsListening (b : bool) (s : HookState) : HookState :=
  {| recognitionRef := recognitionRef s; isListening := b; error := error s;
     interimTranscript := interimTranscript s;
     finalTranscript := finalTranscript s |}.

Definition setError (e : option jsstring) (s : HookState) : HookState :=
  {| recognitionRef := recognitionRef s; isListening := isListening s;
     error := e; interimTranscript := interimTranscript s;
     finalTranscript := finalTranscript s |}.

Definition setInterimTranscript (t : jsstring) (s : HookState) : HookState :=
  {| recognitionRef := recognitionRef s; isListening := isListening s;
     error := error s; interimTranscript := t;
     finalTranscript := finalTranscript s |}.

(** [setFinalTranscript(previous => ...)]: the updater form. *)
Definition setFinalTranscript (update : jsstring -> jsstring) (s : HookState)
    : HookState :=
  {| recognitionRef := recognitionRef s; isListening := isListening s;
     error := error s; interimTranscript := interimTranscript s;
     finalTranscript := update (finalTranscript s) |}.

Definition setRecognitionRef (r : option MutableRecognition) (s : HookState)
    : HookState :=
  {| recognitionRef := r; isListening := isListening s; error := error s;
     interimTranscript := interimTranscript s;
     finalTranscript := finalTranscript s |}.

(** The initial values of the ref and of the [useState] cells. *)
Definition initialState : HookState :=
  {| recognitionRef := None; isListening := false; error := None;
     interimTranscript := []; finalTranscript := [] |}.

(** The body of the mount effect. *)
Definition mountEffect (window : option ScopedWindow) (s : HookState)
    : HookState :=
  match getRecognitionConstructor window with
  | None =>
      setError
        (Some (lit "Speech recognition is not supported in this browser.")) s
  | Some _ =>
      setRecognitionRef
        (Some {| continuous := true; interimResults := true;
                 lang := lit "en-US" |}) s
  end.

(** [recognition.onresult] *)
Definition onresult (event : SpeechRecognitionEventLike) (s : HookState)
    : HookState :=
  let segments := mapTranscriptSegments (results event) (resultIndex event) in
  let s1 := setInterimTranscript (interim segments) s in
  if truthy (final segments) then
    setFinalTranscript
      (fun previous =>
         if truthy previous
         then trim (template_sp previous (final segments))
         else final segments) s1
  else s1.

(** [recognition.onerror] *)
Definition onerror (event : SpeechRecognitionErrorEventLike) (s : HookState)
    : HookState :=
  let message :=
    if truthy (error_code event)
    then lit "Speech recognition error: " ++ error_code event
    else lit "Speech recognition error occurred." in
  setIsListening false (setError (Some message) s).

(** [recognition.onend] *)
Definition onend (s : HookState) : HookState :=
  setInterimTranscript [] (setIsListening false s).

(** [startListening]; [started] is what [recognition.start()] did: [None]
    when it returned, [Some v] when it threw [v]. *)
Definition startListening (started : option Thrown) (s : HookState)
    : HookState :=
  match recognitionRef s with
  | None => setError (Some (lit "Speech recognition is not available.")) s
  | Some _ =>
      let s1 := setError None s in
      match started with
      | None => setIsListening true s1
      | Some (ThrownError message) => setError (Some message) s1
      | Some ThrownOther =>
          setError (Some (lit "Unable to start speech recognition.")) s1
      end
  end.

(** [stopListening]; [stopped] is what [recognition.stop()] did, the
    [catch] block ignores it. *)
Definition stopListening (stopped : option Thrown) (s : HookState)
    : HookState :=
  match recognitionRef s with
  | None => s
  | Some _ => setInterimTranscript [] (setIsListening false s)
  end.

(** What can happen to a mounted hook: the engine calls one of the three
    handlers, or the caller starts or stops. *)
Inductive Action :=
| EngineResult (event : SpeechRecognitionEventLike)
| EngineError (event : SpeechRecognitionErrorEventLike)
| EngineEnd
| CallStart (started : option Thrown)
| CallStop (stopped : option Thrown).

(** The handlers are properties of the engine object the effect created:
    without that object no handler exists and nothing is delivered. *)
Definition deliver (handler : HookState -> HookState) (s : HookState)
    : HookState :=
  match recognitionRef s with
  | None => s
  | Some _ => handler s
  end.

Definition step (s : HookState) (a : Action) : HookState :=
  match a with
  | EngineResult event => deliver (onresult event) s
  | EngineError event => deliver (onerror event) s
  | EngineEnd => deliver onend s
  | CallStart started => startListening started s
  | CallStop stopped => stopListening stopped s
  end.

Definition run (actions : list Action) (s : HookState) : HookState :=
  List.fold_left step actions s.

(** The states a mounted hook can be in.  The cleanup of the effect runs at
    unmount, when React drops the state cells; it is not an action here. *)
Definition reachable (s : HookState) : Prop :=
  exists window actions, s = run actions (mountEffect window initialState).

(** Applying [onresult] to a sequence of events, in order. *)
Definition foldEvents (events : list SpeechRecognitionEventLike)
    (s : HookState) : HookState :=
  List.fold_left (fun st event => onresult event st) events s.

(* --------------------------------------------------------------- *)
(** *** Vocabulary of the statements *)

(** The first alternative of a result, as the loop body reads it. *)
Definition first_alternative (result : SpeechRecognitionResultLike)
    : option SpeechRecognitionAlternativeLike :=
  nullish (get (alternatives result) 0) (item (alternatives result) 0).

(** The trimmed text of a slot of the result list; [''] when the result,
    its first alternative or the transcript is missing. *)
Definition slot_text (slot : option SpeechRecognitionResultLike) : jsstring :=
  match slot with
  | None => []
  | Some result =>
      match trimmed_transcript (first_alternative result) with
      | None => []
      | Some text => text
      end
  end.

Definition slot_is_final (slot : option SpeechRecognitionResultLike) : bool :=
  match slot with
  | None => false
  | Some result => isFinal result
  end.

(** The slots the scan visits: those at index [startIndex] and after. *)
Definition in_range (list : SpeechRecognitionResultListLike)
    (startIndex : Z) : SpeechRecognitionResultListLike :=
  List.skipn (Z.to_nat startIndex) list.

(** The non-empty trimmed texts of the final (resp. non-final) slots. *)
Definition texts_of (want_final : bool)
    (slots : SpeechRecognitionResultListLike) : list jsstring :=
  List.filter truthy
    (List.map slot_text
       (List.filter (fun slot => Bool.eqb (slot_is_final slot) want_final)
                    slots)).

(** A slot that is malformed in one of the three ways the loop guards
    against: no result, no first alternative, no transcript. *)
Definition malformed (slot : option SpeechRecognitionResultLike) : bool :=
  match slot with
  | None => true
  | Some result =>
      match first_alternative result with
      | None => true
      | Some alternative =>
          match transcript alternative with
          | None => true
          | Some _ => false
          end
      end
  end.

(** An event that finalizes exactly one new result: [resultIndex] is the
    index of the last slot, that slot holds a final result; the value is
    its trimmed text. *)
Definition finalized_text (event : SpeechRecognitionEventLike)
    : option jsstring :=
  if ((0 <=? resultIndex event) &&
      (resultIndex event + 1 =? len (results event)))%Z
  then match get (results event) (resultIndex event) with
       | Some result =>
           if isFinal result then Some (slot_text (Some result)) else None
       | None => None
       end
  else None.

(** A segment of a transcript: a non-empty text that [trim] leaves alone. *)
Definition segment (t : jsstring) : Prop := t <> [] /\ trim t = t.

(** A transcript made of segments with exactly one U+0020 between them. *)
Definition well_joined (t : jsstring) : Prop :=
  exists segments, List.Forall segment segments /\ t = join_space segments.

(** What every reachable state satisfies: both transcripts are joins of
    segments, and a hook without an engine object has never listened. *)
Definition session_invariant (s : HookState) : Prop :=
  well_joined (finalTranscript s) /\
  well_joined (interimTranscript s) /\
  (recognitionRef s = None ->
   interimTranscript s = [] /\ isListening s = false).

(** No white space at the front, none at the back. *)
Definition no_outer_space (t : jsstring) : Prop :=
  (forall c rest, t = c :: rest -> is_white_space c = false) /\
  (forall c front, t = front ++ [c] -> is_white_space c = false).

(** The first code unit, if any, is not white space; the same for the
    last one. *)
Definition starts_clean (t : jsstring) : bool :=
  match t with
  | [] => true
  | c :: _ => negb (is_white_space c)
  end.

Definition ends_clean (t : jsstring) : bool := starts_clean (List.rev t).

(** What one iteration of the loop does with the slot it visits. *)
Definition absorb (acc : TranscriptSegments)
    (slot : option SpeechRecognitionResultLike) : TranscriptSegments :=
  if truthy (slot_text slot) then
    if slot_is_final slot
    then {| final := extend (final acc) (slot_text slot);
            interim := interim acc |}
    else {| final := final acc;
            interim := extend (interim acc) (slot_text slot) |}
  else acc.

(** A well-formed result whose only alternative is the empty text. *)
Definition empty_result (is_final : bool) : SpeechRecognitionResultLike :=
  {| isFinal := is_final; alternatives := [Some {| transcript := Some [] |}] |}.

(** No two U+0020 in a row. *)
Fixpoint no_double_space (t : jsstring) : bool :=
  match t with
  | a :: (b :: _) as rest =>
      negb (N.eqb a space && N.eqb b space) && no_double_space rest
  | _ => true
  end.

End Scribe.

(* ================================================================= *)
(** ** The clinical extraction call ([extractClinicalData]) *)

Module Cohere.
Import Scribe.

Record ClinicalData := {
  symptoms : list jsstring;
  history : list jsstring;
  assessment : list jsstring;
  medications : list jsstring;
  plan : list jsstring
}.

Record CohereContentPart := {
  part_type : option jsstring;    (* [type?] *)
  part_text : option jsstring     (* [text?] *)
}.

Record CohereMessage := {
  content : option (list (option CohereContentPart))
}.

Record ChatHistoryEntry := {
  role : option jsstring;
  entry_message : option jsstring  (* [message?] *)
}.

Record CohereChatResponse := {
  message : option CohereMessage;
  text : option jsstring;
  chat_history : option (list ChatHistoryEntry)
}.

(** The request object handed to [cohereClient.chat]. *)
Record ChatPayload := {
  model : jsstring;
  preamble : jsstring;
  payload_message : jsstring
}.

(** How an evaluation ends: with a value, or by throwing. *)
Inductive completion (A : Type) :=
| Normal (value : A)
| Throw (thrown : Thrown).
Arguments Normal {A} value.
Arguments Throw {A} thrown.

Definition bind {A B : Type} (c : completion A) (k : A -> completion B)
    : completion B :=
  match c with
  | Normal a => k a
  | Throw e => Throw e
  end.

Notation "x <- c ;; k" := (bind c (fun x => k))
  (at level 61, c at next level, right associativity).

(** What a call of the [async] function did: the requests it sent to the
    external API, and how its promise settled ([Normal]: resolved,
    [Throw]: rejected). *)
Record Settled := {
  api_calls : list ChatPayload;
  outcome : completion ClinicalData
}.

Definition emptyClinicalData : ClinicalData :=
  {| symptoms := []; history := []; assessment := []; medications := [];
     plan := [] |}.

(** [extractText] *)
Definition extractText (parts : option (list (option CohereContentPart)))
    : jsstring :=
  match parts with
  | None => []                                   (* not an array *)
  | Some parts =>
      trim (join_space
        (List.filter truthy
          (List.map
             (fun part =>
                match part with
                | Some p =>
                    match part_text p with
                    | Some t => trim t
                    | None => []
                    end
                | None => []
                end) parts)))
  end.

Section WithEnvironment.

(** The module's environment: the configured key, the external client,
    the regular-expression engine, [toLowerCase], [JSON.parse] and the
    untyped values it returns. *)
Variable cohereKeyFromEnv : option jsstring.
Variable chat : ChatPayload -> completion CohereChatResponse.
Variable replace_opening_fence : jsstring -> jsstring.
Variable replace_closing_fence : jsstring -> jsstring.
Variable toLowerCase : jsstring -> jsstring.
Variable JSValue : Type.
Variable JSON_parse : jsstring -> option JSValue.
Variable property : JSValue -> jsstring -> completion JSValue.
Variable js_truthy : JSValue -> bool.
Variable as_array : JSValue -> option (list JSValue).
Variable to_string : JSValue -> jsstring.

Definition COHERE_API_KEY : jsstring :=
  match cohereKeyFromEnv with
  | Some key => key
  | None => []
  end.

(** [stripCodeFence] *)
Definition stripCodeFence (text : jsstring) : jsstring :=
  let fenced := trim text in
  if startsWith fenced (lit "```")
  then trim (replace_closing_fence (replace_opening_fence fenced))
  else fenced.

(** [ensureStringArray] *)
Definition ensureStringArray (value : JSValue) : list jsstring :=
  if negb (js_truthy value) then []
  else match as_array value with
       | Some items =>
           List.filter truthy
             (List.map (fun item => trim (to_string item)) items)
       | None => List.filter truthy [trim (to_string value)]
       end.

(** A name between two U+0022, as it stands in the prompt. *)
Definition quoted (name : string) : jsstring :=
  34%N :: lit name ++ [34%N].

Definition systemPrompt : jsstring :=
  lit "You are a clinical NLP engine. Convert the given transcript into structured clinical data. "
  ++ lit "Extract symptoms, medical history, assessment, medications, and plan. Ignore non-medical conversation. "
  ++ lit "Return ONLY valid JSON with this structure: { "
  ++ quoted "symptoms" ++ lit ": [], " ++ quoted "history" ++ lit ": [], "
  ++ quoted "assessment" ++ lit ": [], " ++ quoted "medications"
  ++ lit ": [], " ++ quoted "plan" ++ lit ": [] }".

(** The text taken from the response, with its two fallbacks. *)
Definition responseText (data : CohereChatResponse) : jsstring :=
  let rawText :=
    extractText
      (match message data with
       | Some m => content m
       | None => None
       end) in
  let rawText :=
    if negb (truthy rawText)
    then match text data with
         | Some t => trim t
         | None => rawText
         end
    else rawText in
  let rawText :=
    if negb (truthy rawText)
    then match chat_history data with
         | Some entries =>
             match List.find
                     (fun entry =>
                        match role entry with
                        | Some r =>
                            if List.list_eq_dec N.eq_dec
                                 (toLowerCase r) (lit "chatbot")
                            then true else false
                        | None => false
                        end) (List.rev entries) with
             | Some lastBot =>
                 match entry_message lastBot with
                 | Some m => if truthy m then trim m else rawText
                 | None => rawText
                 end
             | None => rawText
             end
         | None => rawText
         end
    else rawText in
  stripCodeFence rawText.

(** The body of the [try] block once the response has arrived. *)
Definition decodeResponse (data : CohereChatResponse)
    : completion ClinicalData :=
  let rawText := responseText data in
  if negb (truthy rawText)
  then Throw (ThrownError (lit "Cohere API returned empty content"))
  else
    match JSON_parse rawText with
    | None => Throw (ThrownError (lit "Cohere response was not valid JSON"))
    | Some parsed =>
        symptoms_v <- property parsed (lit "symptoms") ;;
        history_v <- property parsed (lit "history") ;;
        assessment_v <- property parsed (lit "assessment") ;;
        medications_v <- property parsed (lit "medications") ;;
        plan_v <- property parsed (lit "plan") ;;
        Normal {| symptoms := ensureStringArray symptoms_v;
                  history := ensureStringArray history_v;
                  assessment := ensureStringArray assessment_v;
                  medications := ensureStringArray medications_v;
                  plan := ensureStringArray plan_v |}
    end.

(** The outer [catch]: an [Error] is rethrown, anything else is
    replaced. *)
Definition rethrow (c : completion ClinicalData) : completion ClinicalData :=
  match c with
  | Normal value => Normal value
  | Throw (ThrownError m) => Throw (ThrownError m)
  | Throw ThrownOther =>
      Throw (ThrownError (lit "Unexpected error during extractClinicalData"))
  end.

(** [extractClinicalData] *)
Definition extractClinicalData (transcript : jsstring) : Settled :=
  if negb (truthy transcript) || negb (truthy (trim transcript)) then
    {| api_calls := []; outcome := Normal emptyClinicalData |}
  else if negb (truthy COHERE_API_KEY) then
    {| api_calls := [];
       outcome :=
         Throw (ThrownError
                  (lit "Missing Cohere API key (set COHERE_API_KEY)")) |}
  else
    let trimmedTranscript := trim transcript in
    if negb (truthy trimmedTranscript) then
      {| api_calls := [];
         outcome :=
           Throw (ThrownError
                    (lit "Transcript is empty; cannot extract clinical data.")) |}
    else
      let payload :=
        {| model := lit "command-a-03-2025";
           preamble := systemPrompt;
           payload_message := trimmedTranscript |} in
      {| api_calls := [payload];
         outcome := rethrow (data <- chat payload ;; decodeResponse data) |}.

End WithEnvironment.

End Cohere.

(** [part?.text?.trim() ?? ''], the function [extractText] maps over the
    parts. *)
Definition part_trimmed_text (part : option Cohere.CohereContentPart)
    : jsstring :=
  match part with
  | Some p =>
      match Cohere.part_text p with
      | Some t => trim t
      | None => []
      end
  | None => []
  end.

(* ================================================================= *)
(** ** Sample inputs *)

Module Sample.
Import Scribe.

Definition res (is_final : bool) (t : string)
    : option SpeechRecognitionResultLike :=
  Some {| isFinal := is_final;
          alternatives := [Some {| transcript := Some (lit t) |}] |}.

(** The two events of the examples of the specification. *)
Definition event1 : SpeechRecognitionEventLike :=
  {| resultIndex := 0;
     results := [res true "chest pain"; res false "for two"] |}.

Definition event2 : SpeechRecognitionEventLike :=
  {| resultIndex := 1;
     results := [res true "chest pain"; res true " for two days "] |}.

(** A browser that only has the prefixed constructor, and one without
    any. *)
Definition webkit_window : option ScopedWindow :=
  Some {| SpeechRecognition := None;
          webkitSpeechRecognition := Some WebkitCtor |}.

Definition bare_window : option ScopedWindow :=
  Some {| SpeechRecognition := None; webkitSpeechRecognition := None |}.

Definition mounted : HookState := mountEffect webkit_window initialState.

(** Two events that each finalize one new result. *)
Definition first_final : SpeechRecognitionEventLike :=
  {| resultIndex := 0; results := [res true "chest pain"] |}.

(** Two events that each finalize one new result, the first one a result
    whose text is a single space. *)
Definition blank_final : SpeechRecognitionEventLike :=
  {| resultIndex := 0; results := [res true " "] |}.

Definition after_blank_final : SpeechRecognitionEventLike :=
  {| resultIndex := 1; results := [res true " "; res true "a"] |}.

(** An event whose results are all provisional. *)
Definition provisional : SpeechRecognitionEventLike :=
  {| resultIndex := 0;
     results := [res false " for two"; res false "  "; None;
                 res false "days "] |}.

(** A final result whose text is white space only, and the slots around
    it in a list. *)
Definition blank_result : SpeechRecognitionResultLike :=
  {| isFinal := true;
     alternatives := [Some {| transcript := Some (lit "  ") |}] |}.

Definition slots_before : SpeechRecognitionResultListLike :=
  [res true "chest pain"].

Definition slots_after : SpeechRecognitionResultListLike :=
  [res false "for two"; res true "days"].

(** A result without any alternative. *)
Definition no_alternative : option SpeechRecognitionResultLike :=
  Some {| isFinal := false; alternatives := [] |}.

(** A session in which one event has been heard. *)
Definition listening : HookState :=
  run [CallStart None; EngineResult event1] mounted.

(** An environment for [extractClinicalData] without a configured key,
    whose client rejects every request. *)
Definition no_key : option jsstring := None.

Definition failing_chat (payload : Cohere.ChatPayload)
    : Cohere.completion Cohere.CohereChatResponse :=
  Cohere.Throw ThrownOther.

End Sample.

(* ================================================================= *)
(** ** Further vocabulary for sequences of events *)

Module Fold.
Import Scribe.

(** The non-empty trimmed texts of the final results an event brings, in
    scan order. *)
Definition final_texts (event : SpeechRecognitionEventLike) : list jsstring :=
  texts_of true (in_range (results event) (resultIndex event)).

(** The event brings some final text: [segments.final] is truthy. *)
Definition has_final_text (event : SpeechRecognitionEventLike) : bool :=
  truthy (final (mapTranscriptSegments (results event) (resultIndex event))).

(** The non-empty trimmed texts of the non-final results of an event. *)
Definition interim_texts (event : SpeechRecognitionEventLike) : list jsstring :=
  texts_of false (in_range (results event) (resultIndex event)).

(** The final texts one action brings: those of a result event. *)
Definition action_final_texts (a : Action) : list jsstring :=
  match a with
  | EngineResult event => final_texts event
  | _ => []
  end.

(** The interim texts on display after an action: a result event replaces
    them by its own, an end event and a stop remove them, an error event
    and a start leave them. *)
Definition pending_after (pending : list jsstring) (a : Action)
    : list jsstring :=
  match a with
  | EngineResult event => interim_texts event
  | EngineEnd => []
  | CallStop _ => []
  | EngineError _ => pending
  | CallStart _ => pending
  end.

(** The texts that went into finalTranscript since the mount, in order:
    the final texts of every result event, when the window has an engine. *)
Definition texts_heard (window : option ScopedWindow) (actions : list Action)
    : list jsstring :=
  match getRecognitionConstructor window with
  | None => []
  | Some _ => List.flat_map action_final_texts actions
  end.

(** The texts that make interimTranscript after the actions. *)
Definition texts_pending (window : option ScopedWindow) (actions : list Action)
    : list jsstring :=
  match getRecognitionConstructor window with
  | None => []
  | Some _ => List.fold_left pending_after actions []
  end.

(** Where a text of a transcript comes from: it is the trimmed text of a
    final (resp. non-final) result in range of a result event among the
    actions. *)
Definition from_result (want_final : bool) (actions : list Action)
    (t : jsstring) : Prop :=
  exists event slot,
    List.In (EngineResult event) actions /\
    List.In slot (in_range (results event) (resultIndex event)) /\
    slot_is_final slot = want_final /\
    t = slot_text slot.

End Fold.

(* ================================================================= *)
(** ** The two regular expressions of [stripCodeFence]

    Both are used with [String.prototype.replace] and without the [g] flag:
    the leftmost match is removed, the rest of the string is kept.  They have
    the [m] flag: [^] holds at the start of the input and after a
    [LineTerminator], [$] holds at the end of the input and before a
    [LineTerminator].  [\s] is [WhiteSpace] or [LineTerminator], the set of
    [is_white_space]. *)

Module Fence.

Definition backtick : N := 96%N.

(** The three backticks. *)
Definition fence : jsstring := [backtick; backtick; backtick].

(** [[a-zA-Z]] *)
Definition is_ascii_letter (c : N) : bool :=
  (N.leb 65 c && N.leb c 90) || (N.leb 97 c && N.leb c 122).

(** [LineTerminator]: LF, CR, LS, PS. *)
Definition is_line_terminator (c : N) : bool :=
  List.existsb (N.eqb c) [10; 13; 8232; 8233]%N.

(** A greedy [x*] that nothing forces to give back. *)
Fixpoint skip_while (p : N -> bool) (s : jsstring) : jsstring :=
  match s with
  | [] => []
  | c :: rest => if p c then skip_while p rest else s
  end.

(** The three backticks, [[a-zA-Z]*], [\s*], tried at the head of [s]: what
    is left after the match.  Nothing follows [\s*] in the pattern, so both
    stars take all they can. *)
Definition match_opening (s : jsstring) : option jsstring :=
  if startsWith s fence
  then Some (skip_while is_white_space
               (skip_while is_ascii_letter (List.skipn 3 s)))
  else None.

(** The leftmost position where [^] holds and the pattern matches. *)
Fixpoint replace_opening_from (line_start : bool) (s : jsstring) : jsstring :=
  match (if line_start then match_opening s else None) with
  | Some rest => rest
  | None =>
      match s with
      | [] => []
      | c :: rest => c :: replace_opening_from (is_line_terminator c) rest
      end
  end.

(** [text.replace(/^```[a-zA-Z]*\s*/m, '')] *)
Definition replaceOpeningFence (s : jsstring) : jsstring :=
  replace_opening_from true s.

(** [\s*$] tried at the head of [s]: the star first takes a white-space code
    unit and goes on; when that fails it stops in front of it, which [$]
    accepts if the code unit is a [LineTerminator]. *)
Fixpoint match_space_then_end (s : jsstring) : option jsstring :=
  match s with
  | [] => Some []
  | c :: rest =>
      if is_white_space c then
        match match_space_then_end rest with
        | Some remaining => Some remaining
        | None => if is_line_terminator c then Some s else None
        end
      else None
  end.

Definition match_closing (s : jsstring) : option jsstring :=
  if startsWith s fence then match_space_then_end (List.skipn 3 s) else None.

(** [text.replace(/```\s*$/m, '')] *)
Fixpoint replaceClosingFence (s : jsstring) : jsstring :=
  match match_closing s with
  | Some rest => rest
  | None =>
      match s with
      | [] => []
      | c :: rest => c :: replaceClosingFence rest
      end
  end.

(** [stripCodeFence] with the two expressions of the source. *)
Definition stripCodeFence (text : jsstring) : jsstring :=
  Cohere.stripCodeFence replaceOpeningFence replaceClosingFence text.

(** A text in a fence: the opening with a language tag, a line break, the
    body, a line break, the closing. *)
Definition fenced (language body : jsstring) : jsstring :=
  fence ++ language ++ [10%N] ++ body ++ [10%N] ++ fence.

End Fence.

(* ================================================================= *)
(** ** The component: the draft button and [handleGenerateDraft] *)

Module Draft.
Import Scribe.

(** The three [useState] cells of the component. *)
Record DraftState := {
  clinicalData : option Cohere.ClinicalData;
  isExtracting : bool;
  cohereError : option jsstring
}.

(** [const stopDisabled = !isListening] *)
Definition stopDisabled (s : HookState) : bool := negb (isListening s).

(** [const draftDisabled = !finalTranscript || isExtracting] *)
Definition draftDisabled (s : HookState) (d : DraftState) : bool :=
  negb (truthy (finalTranscript s)) || isExtracting d.

(** What one call of the [async] handler did: the state while it awaits
    ([None] when it returned before), the state once it is over, and the
    requests that went out. *)
Record DraftRun := {
  awaiting : option DraftState;
  settled : DraftState;
  requests : list Cohere.ChatPayload
}.

(** [handleGenerateDraft]; [extract] is [extractClinicalData]. *)
Definition handleGenerateDraft (extract : jsstring -> Cohere.Settled)
    (finalTranscript : jsstring) (d : DraftState) : DraftRun :=
  if negb (truthy (trim finalTranscript)) then
    {| awaiting := None;
       settled :=
         {| clinicalData := clinicalData d; isExtracting := isExtracting d;
            cohereError :=
              Some (lit "Transcript is empty; please capture audio first.") |};
       requests := [] |}
  else
    let call := extract finalTranscript in
    {| awaiting :=
         Some {| clinicalData := clinicalData d; isExtracting := true;
                 cohereError := None |};
       settled :=
         match Cohere.outcome call with
         | Cohere.Normal clinical =>
             {| clinicalData := Some clinical; isExtracting := false;
                cohereError := None |}
         | Cohere.Throw (ThrownError message) =>
             {| clinicalData := clinicalData d; isExtracting := false;
                cohereError := Some message |}
         | Cohere.Throw ThrownOther =>
             {| clinicalData := clinicalData d; isExtracting := false;
                cohereError := Some (lit "Failed to extract clinical data.") |}
         end;
       requests := Cohere.api_calls call |}.

End Draft.

(* ================================================================= *)
(** ** The relay script: [logTranscript] *)

Module Relay.

Record Alternative := {
  content : option jsstring
}.

(** One entry of [data.results]. *)
Record TranscriptResult := {
  type : option jsstring;
  alternatives : option (list (option Alternative));
  is_eos : bool                      (* truthiness of [is_eos] *)
}.

(** The [data] of a received message; [rendered] is [JSON.stringify(data)]. *)
Record MessageData := {
  message : jsstring;
  results : option (list TranscriptResult);
  rendered : jsstring
}.

(** What the handler does to the outside, in order. *)
Inductive Effect :=
| StdoutWrite (text : jsstring)
| StderrWrite (text : jsstring)
| StopAndExit (code : Z).   (* [stopRecognition({noTimeout: true})], then [process.exit(code)] *)

(** [a === b] on strings. *)
Definition same (a b : jsstring) : bool :=
  if List.list_eq_dec N.eq_dec a b then true else false.

(** [result.alternatives?.[0]?.content ?? ''] *)
Definition word_of (result : TranscriptResult) : jsstring :=
  match alternatives result with
  | None => []
  | Some alts =>
      match List.nth_error alts 0 with
      | Some (Some alternative) =>
          match content alternative with
          | Some word => word
          | None => []
          end
      | _ => []
      end
  end.

Definition is_word (result : TranscriptResult) : bool :=
  match type result with
  | Some t => same t (lit "word")
  | None => false
  end.

(** The body of the loop over [data.results]. *)
Definition log_result (result : TranscriptResult) : list Effect :=
  (if is_word result then [StdoutWrite [space]] else [])
  ++ [StdoutWrite (word_of result)]
  ++ (if is_eos result then [StdoutWrite [10%N]] else []).

(** [logTranscript] *)
Definition logTranscript (data : MessageData) : list Effect :=
  if same (message data) (lit "AddTranscript") then
    List.flat_map log_result
      (match results data with
       | Some rs => rs
       | None => []
       end)
  else if same (message data) (lit "EndOfTranscript") then
    [StdoutWrite [10%N]; StopAndExit 0]
  else if same (message data) (lit "Error") then
    [StderrWrite ([10%N] ++ rendered data ++ [10%N]); StopAndExit 1]
  else [].

(** Everything written to the standard output, in order. *)
Definition stdout_text (effects : list Effect) : jsstring :=
  List.flat_map
    (fun e => match e with
              | StdoutWrite text => text
              | _ => []
              end) effects.

(** The text one result puts on the standard output. *)
Definition render (result : TranscriptResult) : jsstring :=
  (if is_word result then [space] else [])
  ++ word_of result
  ++ (if is_eos result then [10%N] else []).

(** A word result, as the service sends it. *)
Definition word (w : jsstring) : TranscriptResult :=
  {| type := Some (lit "word");
     alternatives := Some [Some {| content := Some w |}];
     is_eos := false |}.

Definition add_transcript (rs : list TranscriptResult) : MessageData :=
  {| message := lit "AddTranscript"; results := Some rs; rendered := [] |}.

End Relay.

(* ================================================================= *)
(** ** More sample inputs *)

Module Inputs.
Import Scribe.

(** Three results, as one event and as the two events an engine that
    reports them in two steps sends. *)
Definition three_slots : SpeechRecognitionResultListLike :=
  [Sample.res true "chest pain"; Sample.res true " for two days";
   Sample.res false "and"].

Definition all_at_once : SpeechRecognitionEventLike :=
  {| resultIndex := 0; results := three_slots |}.

Definition stale_slots : SpeechRecognitionResultListLike :=
  [Sample.res true "old"; Sample.res false "older"].

Definition other_stale_slots : SpeechRecognitionResultListLike :=
  [None; Sample.res true "something else"].

Definition past_end : SpeechRecognitionEventLike :=
  {| resultIndex := 5; results := three_slots |}.

Definition unsupported : HookState :=
  mountEffect Sample.bare_window initialState.

Definition a_key : option jsstring := Some (lit "secret").

(** A client that answers every request with the same fenced text. *)
Definition answering_chat (payload : Cohere.ChatPayload)
    : Cohere.completion Cohere.CohereChatResponse :=
  Cohere.Normal
    {| Cohere.message := None;
       Cohere.text := Some (Fence.fenced (lit "json") (lit "{}"));
       Cohere.chat_history := None |}.

(** [extractClinicalData] in an environment whose parser rejects
    everything. *)
Definition extract_with (key : option jsstring)
    (chat : Cohere.ChatPayload -> Cohere.completion Cohere.CohereChatResponse)
    (transcript : jsstring) : Cohere.Settled :=
  Cohere.extractClinicalData key chat Fence.replaceOpeningFence
    Fence.replaceClosingFence (fun t => t) unit (fun _ => None)
    (fun _ _ => Cohere.Throw ThrownOther) (fun _ => false) (fun _ => None)
    (fun _ => []) transcript.

Definition idle_draft : Draft.DraftState :=
  {| Draft.clinicalData := None; Draft.isExtracting := false;
     Draft.cohereError := None |}.

Definition punctuation (mark : jsstring) (eos : bool) : Relay.TranscriptResult :=
  {| Relay.type := Some (lit "punctuation");
     Relay.alternatives := Some [Some {| Relay.content := Some mark |}];
     Relay.is_eos := eos |}.

End Inputs.

(* ================================================================= *)
(** * Properties *)

Import Scribe.

(* ----------------------------------------------------------------- *)
(** ** [trim] *)

Lemma trimStart_split (s : jsstring) :
  exists p, s = p ++ trimStart s /\ List.forallb is_white_space p = true.
Proof.
  induction s as [|c s [p [Hs Hp]]]; simpl.
  - exists []; auto.
  - destruct (is_white_space c) eqn:Hc.
    + exists (c :: p); simpl; rewrite Hc, Hp; split; [congruence | reflexivity].
    + exists []; auto.
Qed.

Lemma trimStart_starts_clean (s : jsstring) : starts_clean (trimStart s) = true.
Proof.
  induction s as [|c s IH]; simpl; auto.
  destruct (is_white_space c) eqn:Hc; auto.
  simpl; now rewrite Hc.
Qed.

Lemma trimStart_id (s : jsstring) : starts_clean s = true -> trimStart s = s.
Proof.
  destruct s as [|c s]; simpl; auto.
  now destruct (is_white_space c).
Qed.

Lemma trimEnd_split (s : jsstring) :
  exists q, s = trimEnd s ++ q /\ List.forallb is_white_space q = true.
Proof.
  unfold trimEnd.
  destruct (trimStart_split (List.rev s)) as [p [Hs Hp]].
  exists (List.rev p); split.
  - rewrite <- List.rev_app_distr, <- Hs. now rewrite List.rev_involutive.
  - rewrite List.forallb_forall in *. intros x Hx. apply Hp.
    now apply List.in_rev.
Qed.

Lemma trimEnd_ends_clean (s : jsstring) : ends_clean (trimEnd s) = true.
Proof.
  unfold ends_clean, trimEnd. rewrite List.rev_involutive.
  apply trimStart_starts_clean.
Qed.

Lemma trimEnd_id (s : jsstring) : ends_clean s = true -> trimEnd s = s.
Proof.
  unfold ends_clean, trimEnd. intros H.
  rewrite (trimStart_id _ H). apply List.rev_involutive.
Qed.

Lemma trimEnd_starts_clean (s : jsstring) :
  starts_clean s = true -> starts_clean (trimEnd s) = true.
Proof.
  intros H. destruct (trimEnd_split s) as [q [Hs _]].
  destruct (trimEnd s) as [|c r]; auto.
  rewrite Hs in H. exact H.
Qed.

Lemma trim_starts_clean (s : jsstring) : starts_clean (trim s) = true.
Proof. apply trimEnd_starts_clean, trimStart_starts_clean. Qed.

Lemma trim_ends_clean (s : jsstring) : ends_clean (trim s) = true.
Proof. apply trimEnd_ends_clean. Qed.

Lemma trim_id (s : jsstring) :
  starts_clean s = true -> ends_clean s = true -> trim s = s.
Proof.
  intros Hs He. unfold trim. rewrite (trimStart_id _ Hs). now apply trimEnd_id.
Qed.

Lemma trim_idempotent (s : jsstring) : trim (trim s) = trim s.
Proof. apply trim_id; [apply trim_starts_clean | apply trim_ends_clean]. Qed.

Lemma segment_clean (t : jsstring) :
  segment t -> starts_clean t = true /\ ends_clean t = true.
Proof.
  intros [_ H]. rewrite <- H. split.
  - apply trim_starts_clean.
  - apply trim_ends_clean.
Qed.

Lemma clean_segment (t : jsstring) :
  truthy t = true -> starts_clean t = true -> ends_clean t = true -> segment t.
Proof.
  intros Ht Hs He. split.
  - destruct t; [discriminate | congruence].
  - now apply trim_id.
Qed.

Lemma ends_clean_app (a b : jsstring) :
  truthy b = true -> ends_clean (a ++ b) = ends_clean b.
Proof.
  unfold ends_clean. rewrite List.rev_app_distr.
  destruct b as [|c b]; [discriminate|]. intros _.
  destruct (List.rev (c :: b)) as [|d r] eqn:E; simpl; auto.
  apply (f_equal (@List.length N)) in E. rewrite List.length_rev in E.
  discriminate.
Qed.

Lemma starts_clean_app (a b : jsstring) :
  truthy a = true -> starts_clean (a ++ b) = starts_clean a.
Proof. destruct a; [discriminate | reflexivity]. Qed.

Lemma clean_no_outer_space (t : jsstring) :
  starts_clean t = true -> ends_clean t = true -> no_outer_space t.
Proof.
  intros Hs He. split.
  - intros c rest ->. simpl in Hs. now destruct (is_white_space c).
  - intros c front ->. unfold ends_clean in He.
    rewrite List.rev_app_distr in He. simpl in He.
    now destruct (is_white_space c).
Qed.

(* ----------------------------------------------------------------- *)
(** ** Joining with one space *)

Lemma join_space_cons (t : jsstring) (ts : list jsstring) :
  ts <> [] -> join_space (t :: ts) = t ++ space :: join_space ts.
Proof. destruct ts; [congruence | reflexivity]. Qed.

Lemma join_space_truthy (ts : list jsstring) :
  ts <> [] -> List.Forall (fun t => truthy t = true) ts ->
  truthy (join_space ts) = true.
Proof.
  destruct ts as [|t ts]; [congruence|]. intros _ H.
  inversion H as [|? ? Ht _]; subst.
  destruct t as [|c t]; [discriminate|].
  destruct ts; reflexivity.
Qed.

Lemma join_space_app (a b : list jsstring) :
  a <> [] -> b <> [] ->
  join_space (a ++ b) = join_space a ++ space :: join_space b.
Proof.
  induction a as [|t a IH]; [congruence|]. intros _ Hb.
  destruct a as [|u a].
  - simpl List.app. now rewrite join_space_cons.
  - change ((t :: u :: a) ++ b) with (t :: ((u :: a) ++ b)).
    rewrite join_space_cons by (simpl; congruence).
    rewrite IH by congruence.
    rewrite (join_space_cons t (u :: a)) by congruence.
    now rewrite <- List.app_assoc.
Qed.

Lemma fold_extend_join (ts : list jsstring) (acc : jsstring) :
  List.Forall (fun t => truthy t = true) ts ->
  List.fold_left extend ts acc =
    if truthy acc then join_space (acc :: ts) else join_space ts.
Proof.
  revert acc. induction ts as [|t ts IH]; intros acc H.
  - destruct acc; reflexivity.
  - inversion H as [|? ? Ht Hts]; subst. simpl List.fold_left.
    rewrite (IH _ Hts). unfold extend, template_sp.
    destruct acc as [|c acc]; simpl truthy; cbv iota.
    + now rewrite Ht.
    + change (truthy ((c :: acc) ++ space :: t)) with true. cbv iota.
      destruct ts as [|u ts]; [reflexivity|].
      rewrite (join_space_cons (c :: acc) (t :: u :: ts)) by congruence.
      rewrite !(join_space_cons _ (u :: ts)) by congruence.
      now rewrite <- List.app_assoc.
Qed.

Lemma join_space_clean (ts : list jsstring) :
  List.Forall segment ts ->
  starts_clean (join_space ts) = true /\ ends_clean (join_space ts) = true.
Proof.
  induction ts as [|t ts IH]; intros H; [split; reflexivity|].
  inversion H as [|? ? Ht Hts]; subst.
  destruct (segment_clean _ Ht) as [Hs He].
  destruct ts as [|u ts]; [now split|].
  rewrite join_space_cons by congruence.
  destruct (IH Hts) as [_ IHe].
  assert (Hne : truthy (join_space (u :: ts)) = true).
  { apply join_space_truthy; [congruence|].
    eapply List.Forall_impl; [|exact Hts].
    intros a [Ha _]. destruct a; [congruence | reflexivity]. }
  split.
  - rewrite starts_clean_app; auto. destruct Ht as [Ht _].
    destruct t; [congruence | reflexivity].
  - change (t ++ space :: join_space (u :: ts))
      with (t ++ [space] ++ join_space (u :: ts)).
    rewrite List.app_assoc, ends_clean_app; auto.
Qed.

Lemma no_double_space_app (a b : jsstring) :
  no_double_space a = true -> no_double_space b = true ->
  ends_clean a = true -> starts_clean b = true -> truthy a = true ->
  no_double_space (a ++ space :: b) = true.
Proof.
  induction a as [|c a IH]; [discriminate|].
  intros Ha Hb He Hs _. destruct a as [|d a].
  - unfold ends_clean in He. simpl in He. simpl List.app.
    change (no_double_space (c :: space :: b))
      with (negb (N.eqb c space && N.eqb space space)
            && no_double_space (space :: b)).
    assert (Hc : N.eqb c space = false).
    { destruct (N.eqb_spec c space) as [->|]; [discriminate | reflexivity]. }
    rewrite Hc. simpl andb. simpl negb.
    destruct b as [|e b]; [reflexivity|].
    change (no_double_space (space :: e :: b))
      with (negb (N.eqb space space && N.eqb e space)
            && no_double_space (e :: b)).
    simpl in Hs.
    assert (Hee : N.eqb e space = false).
    { destruct (N.eqb_spec e space) as [->|]; [discriminate | reflexivity]. }
    rewrite Hee, Hb. reflexivity.
  - change (no_double_space (c :: d :: a))
      with (negb (N.eqb c space && N.eqb d space)
            && no_double_space (d :: a)) in Ha.
    apply andb_true_iff in Ha. destruct Ha as [Hcd Hda].
    change ((c :: d :: a) ++ space :: b) with (c :: d :: (a ++ space :: b)).
    change (no_double_space (c :: d :: a ++ space :: b))
      with (negb (N.eqb c space && N.eqb d space)
            && no_double_space ((d :: a) ++ space :: b)).
    rewrite Hcd. simpl andb. apply IH; auto.
    unfold ends_clean in *.
    change (c :: d :: a) with ([c] ++ d :: a) in He.
    fold (ends_clean ([c] ++ d :: a)) in He.
    rewrite ends_clean_app in He by reflexivity. exact He.
Qed.

Lemma join_space_no_double (ts : list jsstring) :
  List.Forall segment ts ->
  List.Forall (fun t => no_double_space t = true) ts ->
  no_double_space (join_space ts) = true.
Proof.
  induction ts as [|t ts IH]; intros Hseg Hnd; [reflexivity|].
  inversion Hseg as [|? ? Ht Hts]; subst.
  inversion Hnd as [|? ? Hn Hns]; subst.
  destruct ts as [|u ts]; [exact Hn|].
  rewrite join_space_cons by congruence.
  destruct (segment_clean _ Ht) as [_ He].
  destruct (join_space_clean _ Hts) as [Hs _].
  apply no_double_space_app; auto.
  destruct Ht as [Ht _]. destruct t; [congruence | reflexivity].
Qed.

(* ----------------------------------------------------------------- *)
(** ** The scan of [mapTranscriptSegments] *)

Lemma loop_body_before_zero list index acc :
  (index < 0)%Z -> loop_body list index acc = acc.
Proof.
  intros H. unfold loop_body, item, get.
  destruct (Z.ltb_spec index 0); [reflexivity | lia].
Qed.

Lemma loop_body_absorb list index acc slot :
  (0 <= index)%Z -> List.nth_error list (Z.to_nat index) = Some slot ->
  loop_body list index acc = absorb acc slot.
Proof.
  intros H Hn.
  assert (Hget : get list index = slot).
  { unfold get. destruct (Z.ltb_spec index 0); [lia|]. now rewrite Hn. }
  unfold loop_body, absorb, item. rewrite Hget.
  destruct slot as [result|]; cbn [nullish]; [|reflexivity].
  unfold slot_text, slot_is_final, first_alternative, item.
  destruct (trimmed_transcript
              (nullish (get (alternatives result) 0)
                       (get (alternatives result) 0))) as [text|];
    [|reflexivity].
  destruct (truthy text); reflexivity.
Qed.

Lemma skipn_nth_error_cons {A : Type} (l : list A) (n : nat) (x : A) :
  List.nth_error l n = Some x -> List.skipn n l = x :: List.skipn (S n) l.
Proof.
  revert n. induction l as [|a l IH]; intros [|n] H; try discriminate.
  - simpl in H. injection H as ->. reflexivity.
  - simpl in H. apply (IH _ H).
Qed.

(** With the fuel [iterations list index], or more, the loop leaves through
    its guard, having absorbed every slot from [index] on, in order. *)
Lemma for_loop_scan list (n : nat) :
  forall index acc extra,
    n = iterations list index ->
    for_loop (n + extra) list index acc =
      (Z.max index (len list), List.fold_left absorb (in_range list index) acc).
Proof.
  unfold iterations, in_range, len.
  induction n as [|n IH]; intros index acc extra Hn.
  - assert (Hge : (Z.of_nat (List.length list) <= index)%Z) by lia.
    rewrite List.skipn_all2 by lia. simpl List.fold_left.
    replace (Z.max index (Z.of_nat (List.length list))) with index by lia.
    destruct extra as [|extra]; [reflexivity|]. simpl.
    unfold len. destruct (Z.ltb_spec index (Z.of_nat (List.length list)));
      [lia | reflexivity].
  - assert (Hlt : (index < Z.of_nat (List.length list))%Z) by lia.
    simpl. unfold len at 1.
    destruct (Z.ltb_spec index (Z.of_nat (List.length list))); [|lia].
    rewrite IH by lia.
    replace (Z.max (index + 1) (Z.of_nat (List.length list)))
      with (Z.max index (Z.of_nat (List.length list))) by lia.
    f_equal.
    destruct (Z.ltb_spec index 0) as [Hneg|Hpos].
    + rewrite loop_body_before_zero by assumption.
      replace (Z.to_nat (index + 1)) with (Z.to_nat index) by lia.
      reflexivity.
    + destruct (List.nth_error list (Z.to_nat index)) as [slot|] eqn:Hslot.
      * rewrite (loop_body_absorb _ _ _ _ Hpos Hslot).
        rewrite (skipn_nth_error_cons _ _ _ Hslot).
        replace (Z.to_nat (index + 1)) with (S (Z.to_nat index)) by lia.
        reflexivity.
      * apply List.nth_error_None in Hslot. lia.
Qed.

Lemma texts_of_cons want slot slots :
  texts_of want (slot :: slots) =
    (if Bool.eqb (slot_is_final slot) want && truthy (slot_text slot)
     then [slot_text slot] else []) ++ texts_of want slots.
Proof.
  unfold texts_of. simpl.
  destruct (Bool.eqb (slot_is_final slot) want); simpl; [|reflexivity].
  destruct (truthy (slot_text slot)); reflexivity.
Qed.

Lemma texts_of_app want a b :
  texts_of want (a ++ b) = texts_of want a ++ texts_of want b.
Proof.
  unfold texts_of. now rewrite List.filter_app, List.map_app, List.filter_app.
Qed.

Lemma texts_of_truthy want slots :
  List.Forall (fun t => truthy t = true) (texts_of want slots).
Proof.
  unfold texts_of. apply List.Forall_forall. intros t Ht.
  apply List.filter_In in Ht. tauto.
Qed.

Lemma fold_absorb slots :
  forall acc,
    List.fold_left absorb slots acc =
      {| final := List.fold_left extend (texts_of true slots) (final acc);
         interim := List.fold_left extend (texts_of false slots) (interim acc) |}.
Proof.
  induction slots as [|slot slots IH]; intros acc.
  - destruct acc; reflexivity.
  - simpl List.fold_left. rewrite IH, !texts_of_cons. unfold absorb.
    destruct (truthy (slot_text slot)); rewrite ?andb_false_r, ?andb_true_r;
      [|reflexivity].
    destruct (slot_is_final slot); reflexivity.
Qed.

(** The loop leaves through its guard, and more fuel changes nothing. *)
Lemma run_loop_exit list startIndex :
  fst (run_loop list startIndex) = Z.max startIndex (len list) /\
  forall extra,
    for_loop (iterations list startIndex + extra) list startIndex
             {| final := []; interim := [] |} = run_loop list startIndex.
Proof.
  unfold run_loop. split.
  - rewrite <- (Nat.add_0_r (iterations list startIndex)).
    now rewrite (for_loop_scan list (iterations list startIndex)).
  - intros extra.
    rewrite <- (Nat.add_0_r (iterations list startIndex)) at 2.
    now rewrite !(for_loop_scan list (iterations list startIndex)).
Qed.

(** What the scan returns: the two space-joined lists of non-empty trimmed
    texts, of the final and of the non-final slots in range. *)
Lemma mapTranscriptSegments_join list startIndex :
  mapTranscriptSegments list startIndex =
    {| final := join_space (texts_of true (in_range list startIndex));
       interim := join_space (texts_of false (in_range list startIndex)) |}.
Proof.
  unfold mapTranscriptSegments, run_loop.
  rewrite <- (Nat.add_0_r (iterations list startIndex)).
  rewrite (for_loop_scan list (iterations list startIndex)) by reflexivity.
  simpl snd. rewrite fold_absorb. simpl final. simpl interim.
  rewrite !fold_extend_join by apply texts_of_truthy. reflexivity.
Qed.

(* ----------------------------------------------------------------- *)
(** ** [onresult] *)

Lemma slot_text_clean slot :
  starts_clean (slot_text slot) = true /\ ends_clean (slot_text slot) = true.
Proof.
  destruct slot as [result|]; [|split; reflexivity].
  unfold slot_text, trimmed_transcript.
  destruct (first_alternative result) as [a|]; [|split; reflexivity].
  destruct (transcript a) as [t|]; [|split; reflexivity].
  split; [apply trim_starts_clean | apply trim_ends_clean].
Qed.

Lemma texts_of_segments want slots :
  List.Forall segment (texts_of want slots).
Proof.
  unfold texts_of. apply List.Forall_forall. intros t Ht.
  apply List.filter_In in Ht. destruct Ht as [Hin Ht].
  apply List.in_map_iff in Hin. destruct Hin as [slot [<- _]].
  destruct (slot_text_clean slot). now apply clean_segment.
Qed.

Lemma trim_template (a b : jsstring) :
  truthy a = true -> starts_clean a = true ->
  truthy b = true -> ends_clean b = true ->
  trim (template_sp a b) = template_sp a b.
Proof.
  intros Ha Hs Hb He. unfold template_sp. apply trim_id.
  - now rewrite starts_clean_app.
  - rewrite ends_clean_app by reflexivity.
    change (space :: b) with ([space] ++ b). now rewrite ends_clean_app.
Qed.

(** On a transcript that does not start with white space, the [trim] of
    [onresult] changes nothing: the event's final texts are appended one by
    one, each after one space. *)
Lemma onresult_final_extend event s :
  starts_clean (finalTranscript s) = true ->
  finalTranscript (onresult event s) =
    List.fold_left extend
      (texts_of true (in_range (results event) (resultIndex event)))
      (finalTranscript s).
Proof.
  intros Hs. unfold onresult. rewrite mapTranscriptSegments_join.
  cbn [final interim].
  set (ts := texts_of true (in_range (results event) (resultIndex event))).
  assert (Hseg : List.Forall segment ts) by apply texts_of_segments.
  assert (Htr : List.Forall (fun t => truthy t = true) ts)
    by apply texts_of_truthy.
  rewrite (fold_extend_join _ _ Htr).
  destruct ts as [|t ts'] eqn:Ets.
  - cbn. now destruct (finalTranscript s).
  - rewrite (join_space_truthy (t :: ts')) by (congruence || assumption).
    cbn [setFinalTranscript setInterimTranscript finalTranscript].
    destruct (truthy (finalTranscript s)) eqn:Hp; [|reflexivity].
    rewrite (join_space_cons (finalTranscript s) (t :: ts')) by congruence.
    apply trim_template; auto.
    + apply join_space_truthy; [congruence | assumption].
    + now apply join_space_clean.
Qed.

Lemma onresult_interim event s :
  interimTranscript (onresult event s) =
    join_space (texts_of false (in_range (results event) (resultIndex event))).
Proof.
  unfold onresult. rewrite mapTranscriptSegments_join. cbn [final interim].
  destruct (truthy _); reflexivity.
Qed.

Lemma fold_extend_well_joined (segs ts : list jsstring) :
  List.Forall (fun t => truthy t = true) ts ->
  List.Forall (fun t => truthy t = true) segs ->
  List.fold_left extend ts (join_space segs) = join_space (segs ++ ts).
Proof.
  intros Hts Hsegs. rewrite (fold_extend_join _ _ Hts).
  destruct segs as [|g segs]; [reflexivity|].
  rewrite join_space_truthy by (congruence || assumption).
  destruct ts as [|t ts].
  - now rewrite List.app_nil_r.
  - rewrite join_space_cons by congruence.
    now rewrite join_space_app by congruence.
Qed.

Lemma segments_truthy (segs : list jsstring) :
  List.Forall segment segs -> List.Forall (fun t => truthy t = true) segs.
Proof.
  apply List.Forall_impl. intros t [Ht _]. destruct t; [congruence|reflexivity].
Qed.

Lemma fold_extend_prefix (ts : list jsstring) :
  forall acc, exists suffix, List.fold_left extend ts acc = acc ++ suffix.
Proof.
  induction ts as [|t ts IH]; intros acc.
  - exists []. now rewrite List.app_nil_r.
  - simpl. destruct (IH (extend acc t)) as [suffix ->].
    unfold extend, template_sp. destruct (truthy acc) eqn:Ha.
    + exists ((space :: t) ++ suffix). now rewrite List.app_assoc.
    + destruct acc; [|discriminate]. now exists (t ++ suffix).
Qed.

(* ----------------------------------------------------------------- *)
(** ** Sequences of events that each finalize one result *)

Lemma finalized_text_in_range event t :
  finalized_text event = Some t ->
  texts_of true (in_range (results event) (resultIndex event)) =
    List.filter truthy [t].
Proof.
  unfold finalized_text, in_range.
  destruct (Z.leb_spec 0 (resultIndex event)) as [Hpos|]; [|discriminate].
  destruct (Z.eqb_spec (resultIndex event + 1) (len (results event)))
    as [Hlen|]; [|discriminate].
  cbn [andb]. unfold get.
  destruct (Z.ltb_spec (resultIndex event) 0); [lia|].
  destruct (List.nth_error (results event) (Z.to_nat (resultIndex event)))
    as [[result|]|] eqn:Hn; try discriminate.
  destruct (isFinal result) eqn:Hfin; [|discriminate].
  intros Heq. injection Heq as <-.
  rewrite (skipn_nth_error_cons _ _ _ Hn).
  rewrite List.skipn_all2 by (unfold len in Hlen; lia).
  unfold texts_of. cbn [List.filter List.map slot_is_final].
  rewrite Hfin. reflexivity.
Qed.

Lemma fold_extend_starts_clean (ts : list jsstring) :
  List.Forall segment ts ->
  forall acc, starts_clean acc = true ->
  starts_clean (List.fold_left extend ts acc) = true.
Proof.
  induction ts as [|t ts IH]; intros Hseg acc Hacc; [exact Hacc|].
  inversion Hseg as [|? ? Ht Hts]; subst. simpl. apply IH; [assumption|].
  unfold extend, template_sp. destruct (truthy acc) eqn:Ha.
  - now rewrite starts_clean_app.
  - now destruct (segment_clean _ Ht).
Qed.

Lemma foldEvents_finalized events :
  forall texts s,
    starts_clean (finalTranscript s) = true ->
    List.map finalized_text events = List.map Some texts ->
    finalTranscript (foldEvents events s) =
      List.fold_left extend (List.filter truthy texts) (finalTranscript s).
Proof.
  induction events as [|event events IH]; intros [|t texts] s Hs Hmap;
    try discriminate; [reflexivity|].
  cbn [List.map] in Hmap. injection Hmap as Ht Hrest.
  unfold foldEvents in *. cbn [List.fold_left].
  pose proof (onresult_final_extend event s Hs) as Hstep.
  rewrite (finalized_text_in_range _ _ Ht) in Hstep.
  rewrite (IH texts (onresult event s)); [| |assumption].
  - rewrite Hstep. change (t :: texts) with ([t] ++ texts).
    now rewrite List.filter_app, List.fold_left_app.
  - rewrite onresult_final_extend by assumption.
    apply fold_extend_starts_clean; [apply texts_of_segments | assumption].
Qed.

(** C1 (amended): starting from a state whose finalTranscript is empty, after
    a sequence of events that each finalize exactly one new result,
    finalTranscript is the space-joined concatenation, in order, of those
    finalized trimmed texts that are not empty. *)
Theorem finalized_sequence_joined
    (events : list SpeechRecognitionEventLike) (texts : list jsstring)
    (s0 : HookState) :
  finalTranscript s0 = [] ->
  List.map finalized_text events = List.map Some texts ->
  finalTranscript (foldEvents events s0) =
    join_space (List.filter truthy texts).
Proof.
  intros H0 Hmap.
  rewrite (foldEvents_finalized events texts s0); [| |assumption].
  - rewrite H0. rewrite fold_extend_join; [reflexivity|].
    apply List.Forall_forall. intros t Ht. apply List.filter_In in Ht. tauto.
  - now rewrite H0.
Qed.

Lemma finalized_sequence_joined_witness :
  finalTranscript (foldEvents [Sample.first_final; Sample.event2] Sample.mounted)
    = lit "chest pain for two days".
Proof.
  exact (finalized_sequence_joined
           [Sample.first_final; Sample.event2]
           [lit "chest pain"; lit "for two days"]
           Sample.mounted eq_refl eq_refl).
Defined.

(** C1 as stated fails when a finalized text trims to the empty string: the
    code skips it, the plain join keeps an empty element and its space. *)
Lemma finalized_sequence_blank_text :
  finalTranscript Sample.mounted = [] /\
  List.map finalized_text [Sample.blank_final; Sample.after_blank_final]
    = List.map Some [[]; lit "a"] /\
  finalTranscript
    (foldEvents [Sample.blank_final; Sample.after_blank_final] Sample.mounted)
    = lit "a" /\
  join_space [[]; lit "a"] = lit " a" /\
  finalTranscript
    (foldEvents [Sample.blank_final; Sample.after_blank_final] Sample.mounted)
    <> join_space [[]; lit "a"].
Proof. repeat split; discriminate. Qed.

(* ----------------------------------------------------------------- *)
(** ** Events without a final result *)

(** C2: an event with startIndex = 0 whose results are all non-final leaves
    finalTranscript unchanged and sets interimTranscript to the space-joined
    trimmed texts of its results, those that are not empty, in scan order. *)
Theorem interim_only_event (s : HookState) (event : SpeechRecognitionEventLike) :
  resultIndex event = 0%Z ->
  List.forallb (fun slot => negb (slot_is_final slot)) (results event) = true ->
  finalTranscript (onresult event s) = finalTranscript s /\
  interimTranscript (onresult event s) =
    join_space (List.filter truthy (List.map slot_text (results event))).
Proof.
  intros Hidx Hall.
  assert (Hkeep : forall want,
            List.filter (fun slot => Bool.eqb (slot_is_final slot) want)
                        (results event)
            = if want then [] else results event).
  { intros want. induction (results event) as [|slot slots IH];
      [now destruct want|].
    cbn [List.forallb] in Hall. apply andb_true_iff in Hall.
    destruct Hall as [Hslot Hall]. cbn [List.filter].
    rewrite (IH Hall). destruct (slot_is_final slot); [discriminate|].
    now destruct want. }
  split.
  - unfold onresult. rewrite mapTranscriptSegments_join. cbn [final interim].
    rewrite Hidx. unfold texts_of, in_range. cbn [Z.to_nat List.skipn].
    rewrite (Hkeep true). reflexivity.
  - rewrite onresult_interim, Hidx. unfold texts_of, in_range.
    cbn [Z.to_nat List.skipn]. now rewrite (Hkeep false).
Qed.

Lemma interim_only_event_witness :
  finalTranscript (onresult Sample.provisional (onresult Sample.event1 Sample.mounted))
    = lit "chest pain" /\
  interimTranscript (onresult Sample.provisional (onresult Sample.event1 Sample.mounted))
    = lit "for two days".
Proof.
  exact (interim_only_event (onresult Sample.event1 Sample.mounted)
           Sample.provisional eq_refl eq_refl).
Defined.

(* ----------------------------------------------------------------- *)
(** ** Slots without text *)

Lemma in_range_app pre slot post startIndex :
  (startIndex <= len pre)%Z ->
  in_range (pre ++ slot :: post) startIndex =
    in_range pre startIndex ++ slot :: post /\
  in_range (pre ++ post) startIndex = in_range pre startIndex ++ post.
Proof.
  unfold in_range, len. intros H.
  assert (Hk : (Z.to_nat startIndex - List.length pre = 0)%nat) by lia.
  rewrite !List.skipn_app, Hk. split; reflexivity.
Qed.

(** A slot whose text is empty can be dropped from the list, or replaced by
    any other such slot, without changing what the scan returns. *)
Lemma scan_skips_textless pre slot post startIndex :
  (startIndex <= len pre)%Z -> slot_text slot = [] ->
  mapTranscriptSegments (pre ++ slot :: post) startIndex =
    mapTranscriptSegments (pre ++ post) startIndex.
Proof.
  intros Hidx Hblank. rewrite !mapTranscriptSegments_join.
  destruct (in_range_app pre slot post startIndex Hidx) as [-> ->].
  assert (Hdrop : forall want,
            texts_of want (in_range pre startIndex ++ slot :: post) =
            texts_of want (in_range pre startIndex ++ post)).
  { intros want. rewrite !texts_of_app, texts_of_cons, Hblank.
    now rewrite andb_false_r. }
  now rewrite !Hdrop.
Qed.

Lemma malformed_textless slot : malformed slot = true -> slot_text slot = [].
Proof.
  destruct slot as [result|]; [|reflexivity].
  unfold malformed, slot_text, trimmed_transcript.
  destruct (first_alternative result) as [a|]; [|reflexivity].
  destruct (transcript a); [discriminate | reflexivity].
Qed.

Lemma onresult_same_segments event1 event2 s :
  mapTranscriptSegments (results event1) (resultIndex event1) =
    mapTranscriptSegments (results event2) (resultIndex event2) ->
  onresult event1 s = onresult event2 s.
Proof. unfold onresult. now intros ->. Qed.

(** C3: a result whose first alternative's text trims to the empty string
    contributes nothing: the event gives the same state as the event without
    that result, and both accumulators are joins of non-empty texts only.
    When the event's joined final text is not empty, the new finalTranscript
    is the trimmed [previous + ' ' + final] if the previous one is not empty,
    and the joined final text itself otherwise. *)
Theorem blank_text_contributes_nothing
    (s : HookState) (pre post : SpeechRecognitionResultListLike)
    (blank : SpeechRecognitionResultLike) (startIndex : Z)
    (event : SpeechRecognitionEventLike) :
  (startIndex <= len pre)%Z ->
  slot_text (Some blank) = [] ->
  ( mapTranscriptSegments (pre ++ Some blank :: post) startIndex =
      mapTranscriptSegments (pre ++ post) startIndex /\
    onresult {| resultIndex := startIndex;
                results := pre ++ Some blank :: post |} s =
      onresult {| resultIndex := startIndex; results := pre ++ post |} s ) /\
  ( final (mapTranscriptSegments (results event) (resultIndex event)) =
      join_space (texts_of true (in_range (results event) (resultIndex event))) /\
    interim (mapTranscriptSegments (results event) (resultIndex event)) =
      join_space (texts_of false (in_range (results event) (resultIndex event))) ) /\
  ( final (mapTranscriptSegments (results event) (resultIndex event)) <> [] ->
    (finalTranscript s <> [] ->
     finalTranscript (onresult event s) =
       trim (finalTranscript s ++ [space] ++
             final (mapTranscriptSegments (results event) (resultIndex event)))) /\
    (finalTranscript s = [] ->
     finalTranscript (onresult event s) =
       final (mapTranscriptSegments (results event) (resultIndex event))) ).
Proof.
  intros Hidx Hblank. split; [|split].
  - split.
    + now apply scan_skips_textless.
    + apply onresult_same_segments. cbn [results resultIndex].
      now apply scan_skips_textless.
  - rewrite mapTranscriptSegments_join. split; reflexivity.
  - intros Hfinal. unfold onresult.
    destruct (final (mapTranscriptSegments (results event) (resultIndex event)))
      as [|c f] eqn:Ef; [congruence|].
    cbn [truthy setFinalTranscript setInterimTranscript finalTranscript].
    split; intros Hprev.
    + destruct (finalTranscript s); [congruence | reflexivity].
    + now rewrite Hprev.
Qed.

Lemma blank_text_contributes_nothing_witness :
  onresult {| resultIndex := 0;
              results := Sample.slots_before ++
                         Some Sample.blank_result :: Sample.slots_after |}
           Sample.listening =
  onresult {| resultIndex := 0;
              results := Sample.slots_before ++ Sample.slots_after |}
           Sample.listening
  /\ finalTranscript (onresult Sample.event2 Sample.listening) =
       trim (lit "chest pain" ++ [space] ++ lit "for two days")
  /\ finalTranscript (onresult Sample.event1 Sample.mounted) = lit "chest pain".
Proof.
  pose proof (blank_text_contributes_nothing Sample.listening
                Sample.slots_before Sample.slots_after Sample.blank_result 0
                Sample.event2 ltac:(vm_compute; discriminate) eq_refl)
    as [[_ Hsame] [_ Happend]].
  pose proof (blank_text_contributes_nothing Sample.mounted
                Sample.slots_before Sample.slots_after Sample.blank_result 0
                Sample.event1 ltac:(vm_compute; discriminate) eq_refl)
    as [_ [_ Hfirst]].
  split; [exact Hsame | split].
  - exact (proj1 (Happend ltac:(vm_compute; discriminate))
                 ltac:(vm_compute; discriminate)).
  - exact (proj2 (Hfirst ltac:(vm_compute; discriminate)) eq_refl).
Defined.

(* ----------------------------------------------------------------- *)
(** ** The interim transcript *)

(** C5: the interimTranscript after an event is the same whatever the state
    before: it is the interim text computed from the event alone, and it is
    the empty string when every result in range is final. *)
Theorem interim_has_no_memory
    (event : SpeechRecognitionEventLike) (s1 s2 : HookState) :
  interimTranscript (onresult event s1) = interimTranscript (onresult event s2) /\
  interimTranscript (onresult event s1) =
    interim (mapTranscriptSegments (results event) (resultIndex event)) /\
  (List.forallb slot_is_final
     (in_range (results event) (resultIndex event)) = true ->
   interimTranscript (onresult event s1) = []).
Proof.
  split; [|split].
  - now rewrite !onresult_interim.
  - rewrite onresult_interim, mapTranscriptSegments_join. reflexivity.
  - intros Hall. rewrite onresult_interim. unfold texts_of.
    induction (in_range (results event) (resultIndex event)) as [|slot l IH];
      [reflexivity|].
    cbn [List.forallb] in Hall. apply andb_true_iff in Hall.
    destruct Hall as [Hslot Hall]. cbn [List.filter]. rewrite Hslot.
    cbn [Bool.eqb]. now apply IH.
Qed.

Lemma interim_has_no_memory_witness :
  interimTranscript (onresult Sample.event2 (onresult Sample.event1 Sample.mounted))
    = [].
Proof.
  exact (proj2 (proj2 (interim_has_no_memory Sample.event2
                         (onresult Sample.event1 Sample.mounted)
                         Sample.mounted)) eq_refl).
Defined.

(* ----------------------------------------------------------------- *)
(** ** Engine errors *)

(** C7: the error handler leaves finalTranscript and interimTranscript as
    they are, sets isListening to false and sets the error to a message
    string, which is not null and not empty.  This holds in every state, so
    in every Listening state. *)
Theorem engine_error_keeps_transcripts
    (s : HookState) (event : SpeechRecognitionErrorEventLike) :
  finalTranscript (onerror event s) = finalTranscript s /\
  interimTranscript (onerror event s) = interimTranscript s /\
  isListening (onerror event s) = false /\
  exists message,
    error (onerror event s) = Some message /\ message <> [] /\
    message = if truthy (error_code event)
              then lit "Speech recognition error: " ++ error_code event
              else lit "Speech recognition error occurred.".
Proof.
  repeat split. eexists. split; [reflexivity|]. split; [|reflexivity].
  destruct (truthy (error_code event)); discriminate.
Qed.

(* ----------------------------------------------------------------- *)
(** ** Totality of the scan *)

(** C8: for every result list and every startIndex >= 0 the loop of
    mapTranscriptSegments ends through its guard (the index it stops at is
    not below the length, and more fuel changes nothing), so [onresult] always
    yields a state; and a slot in range that is missing, has no first
    alternative, or has no transcript is treated as empty text: the scan
    returns what it returns with a well-formed empty result in its place, and
    what it returns without the slot. *)
Theorem scan_is_total
    (s : HookState) (list : SpeechRecognitionResultListLike) (startIndex : Z) :
  (0 <= startIndex)%Z ->
  ( (len list <= fst (run_loop list startIndex))%Z /\
    (forall extra,
       for_loop (iterations list startIndex + extra) list startIndex
                {| final := []; interim := [] |} = run_loop list startIndex) /\
    exists s', onresult {| resultIndex := startIndex; results := list |} s = s' ) /\
  forall pre slot post,
    list = pre ++ slot :: post ->
    (startIndex <= len pre)%Z ->
    malformed slot = true ->
    slot_text slot = [] /\
    (forall is_final,
       mapTranscriptSegments list startIndex =
         mapTranscriptSegments (pre ++ Some (empty_result is_final) :: post)
                               startIndex) /\
    mapTranscriptSegments list startIndex =
      mapTranscriptSegments (pre ++ post) startIndex /\
    onresult {| resultIndex := startIndex; results := list |} s =
      onresult {| resultIndex := startIndex; results := pre ++ post |} s.
Proof.
  intros Hpos. split.
  - destruct (run_loop_exit list startIndex) as [Hexit Hfuel].
    split; [rewrite Hexit; lia | split; [exact Hfuel | eauto]].
  - intros pre slot post -> Hidx Hbad.
    pose proof (malformed_textless slot Hbad) as Hblank.
    pose proof (scan_skips_textless pre slot post startIndex Hidx Hblank)
      as Hskip.
    split; [exact Hblank | split; [|split]].
    + intros is_final. rewrite Hskip. symmetry.
      now apply scan_skips_textless.
    + exact Hskip.
    + apply onresult_same_segments. exact Hskip.
Qed.

Lemma scan_is_total_witness :
  mapTranscriptSegments
    (Sample.slots_before ++ Sample.no_alternative :: Sample.slots_after) 0 =
  mapTranscriptSegments (Sample.slots_before ++ Sample.slots_after) 0
  /\ mapTranscriptSegments
       (Sample.slots_before ++ None :: Sample.slots_after) 1 =
     mapTranscriptSegments (Sample.slots_before ++ Sample.slots_after) 1.
Proof.
  split.
  - exact (proj1 (proj2 (proj2
      (proj2 (scan_is_total Sample.mounted
                (Sample.slots_before ++ Sample.no_alternative :: Sample.slots_after)
                0 ltac:(vm_compute; discriminate))
             Sample.slots_before Sample.no_alternative Sample.slots_after
             eq_refl ltac:(vm_compute; discriminate) eq_refl)))).
  - exact (proj1 (proj2 (proj2
      (proj2 (scan_is_total Sample.mounted
                (Sample.slots_before ++ None :: Sample.slots_after)
                1 ltac:(vm_compute; discriminate))
             Sample.slots_before None Sample.slots_after
             eq_refl ltac:(vm_compute; discriminate) eq_refl)))).
Defined.

(* ----------------------------------------------------------------- *)
(** ** Invariants of the mounted hook *)

Lemma well_joined_nil : well_joined [].
Proof. exists []. split; [constructor | reflexivity]. Qed.

Lemma well_joined_clean t :
  well_joined t -> starts_clean t = true /\ ends_clean t = true.
Proof. intros [segs [Hseg ->]]. now apply join_space_clean. Qed.

Lemma onresult_frame event s :
  recognitionRef (onresult event s) = recognitionRef s /\
  isListening (onresult event s) = isListening s /\
  error (onresult event s) = error s.
Proof. unfold onresult. destruct (truthy _); repeat split. Qed.

Lemma onresult_well_joined event s :
  well_joined (finalTranscript s) ->
  well_joined (finalTranscript (onresult event s)) /\
  well_joined (interimTranscript (onresult event s)).
Proof.
  intros Hwj. pose proof (well_joined_clean _ Hwj) as [Hs _].
  destruct Hwj as [segs [Hseg Heq]]. split.
  - rewrite (onresult_final_extend event s Hs), Heq.
    rewrite fold_extend_well_joined;
      [|apply texts_of_truthy | now apply segments_truthy].
    eexists. split; [|reflexivity].
    apply List.Forall_app. split; [assumption | apply texts_of_segments].
  - rewrite onresult_interim. eexists. split; [|reflexivity].
    apply texts_of_segments.
Qed.

Lemma mount_invariant window :
  session_invariant (mountEffect window initialState).
Proof.
  unfold mountEffect.
  destruct (getRecognitionConstructor window); repeat split;
    try apply well_joined_nil; discriminate.
Qed.

Lemma step_invariant s a : session_invariant s -> session_invariant (step s a).
Proof.
  intros (Hf & Hi & Hn).
  assert (Hsome : forall s' r,
            recognitionRef s = Some r -> recognitionRef s' = recognitionRef s ->
            recognitionRef s' = None ->
            interimTranscript s' = [] /\ isListening s' = false)
    by (intros; congruence).
  destruct a as [event|event| |started|stopped]; cbn [step];
    unfold deliver, startListening, stopListening;
    destruct (recognitionRef s) as [r|] eqn:Hr;
    try (split; [exact Hf | split; [exact Hi | intros _; exact (Hn eq_refl)]]).
  - destruct (onresult_well_joined event s Hf) as [Hf' Hi'].
    destruct (onresult_frame event s) as (Hr' & _ & _).
    split; [exact Hf' | split; [exact Hi'|]].
    apply (Hsome _ r eq_refl). now rewrite Hr'.
  - split; [exact Hf | split; [exact Hi|]].
    now apply (Hsome _ r eq_refl).
  - split; [exact Hf | split; [apply well_joined_nil|]].
    now apply (Hsome _ r eq_refl).
  - destruct started as [[message|]|];
      (split; [exact Hf | split; [exact Hi|]]);
      now apply (Hsome _ r eq_refl).
  - split; [exact Hf | split; [apply well_joined_nil|]].
    now apply (Hsome _ r eq_refl).
Qed.

Lemma run_invariant actions :
  forall s, session_invariant s -> session_invariant (run actions s).
Proof.
  induction actions as [|a actions IH]; intros s Hs; [exact Hs|].
  apply IH. now apply step_invariant.
Qed.

Lemma reachable_invariant s : reachable s -> session_invariant s.
Proof.
  intros (window & actions & ->). apply run_invariant, mount_invariant.
Qed.

Lemma reachable_run actions s : reachable s -> reachable (run actions s).
Proof.
  intros (window & before & ->). exists window, (before ++ actions).
  unfold run. now rewrite List.fold_left_app.
Qed.

(* ----------------------------------------------------------------- *)
(** ** The final transcript only grows *)

Lemma onresult_appends event s :
  starts_clean (finalTranscript s) = true ->
  exists suffix,
    finalTranscript (onresult event s) = finalTranscript s ++ suffix.
Proof.
  intros Hs. rewrite (onresult_final_extend event s Hs).
  apply fold_extend_prefix.
Qed.

Lemma step_appends s a :
  session_invariant s ->
  exists suffix, finalTranscript (step s a) = finalTranscript s ++ suffix.
Proof.
  intros (Hf & _ & _).
  destruct a as [event|event| |started|stopped]; cbn [step];
    unfold deliver, startListening, stopListening;
    destruct (recognitionRef s) as [r|];
    try (exists []; now rewrite List.app_nil_r).
  - apply onresult_appends. now apply well_joined_clean.
  - destruct started as [[message|]|]; exists []; now rewrite List.app_nil_r.
Qed.

Lemma run_appends actions :
  forall s, session_invariant s ->
  exists suffix, finalTranscript (run actions s) = finalTranscript s ++ suffix.
Proof.
  induction actions as [|a actions IH]; intros s Hs.
  - exists []. now rewrite List.app_nil_r.
  - cbn [run List.fold_left].
    destruct (step_appends s a Hs) as [suffix1 H1].
    destruct (IH (step s a) (step_invariant s a Hs)) as [suffix2 H2].
    exists (suffix1 ++ suffix2). unfold run in H2.
    now rewrite H2, H1, List.app_assoc.
Qed.

(** C4: in every state reachable from the mounted hook by result events,
    error events, end events, starts and stops, the finalTranscript before an
    event is a prefix of the finalTranscript after it; every other operation
    leaves finalTranscript as it is; and whatever happens afterwards, the
    text already there stays as a prefix. *)
Theorem final_transcript_append_only (s : HookState) :
  reachable s ->
  (forall event, exists suffix,
     finalTranscript (onresult event s) = finalTranscript s ++ suffix) /\
  (forall event, finalTranscript (onerror event s) = finalTranscript s) /\
  finalTranscript (onend s) = finalTranscript s /\
  (forall started,
     finalTranscript (startListening started s) = finalTranscript s) /\
  (forall stopped,
     finalTranscript (stopListening stopped s) = finalTranscript s) /\
  (forall actions, exists suffix,
     finalTranscript (run actions s) = finalTranscript s ++ suffix).
Proof.
  intros Hreach. pose proof (reachable_invariant s Hreach) as Hinv.
  destruct Hinv as (Hf & Hi & Hn).
  split; [|split; [|split; [|split; [|split]]]].
  - intros event. apply onresult_appends. now apply well_joined_clean.
  - reflexivity.
  - reflexivity.
  - intros started. unfold startListening.
    destruct (recognitionRef s); [|reflexivity].
    destruct started as [[message|]|]; reflexivity.
  - intros stopped. unfold stopListening.
    destruct (recognitionRef s); reflexivity.
  - intros actions. apply run_appends. exact (conj Hf (conj Hi Hn)).
Qed.

Lemma listening_reachable : reachable Sample.listening.
Proof.
  exists Sample.webkit_window, [CallStart None; EngineResult Sample.event1].
  reflexivity.
Defined.

Lemma final_transcript_append_only_witness :
  exists suffix,
    finalTranscript (onresult Sample.event2 Sample.listening) =
      lit "chest pain" ++ suffix.
Proof.
  exact (proj1 (final_transcript_append_only Sample.listening
                  listening_reachable) Sample.event2).
Defined.

(* ----------------------------------------------------------------- *)
(** ** End of a session *)

(** C6: the engine's end event yields an empty interimTranscript, the same
    finalTranscript and isListening = false, in every state; the caller's stop
    does the same for every transcript state of a hook that has its engine
    object, and in every state the mounted hook can reach. *)
Theorem session_end_clears_interim (s : HookState) (stopped : option Thrown) :
  ( interimTranscript (onend s) = [] /\
    finalTranscript (onend s) = finalTranscript s /\
    isListening (onend s) = false ) /\
  ( recognitionRef s <> None \/ reachable s ->
    interimTranscript (stopListening stopped s) = [] /\
    finalTranscript (stopListening stopped s) = finalTranscript s /\
    isListening (stopListening stopped s) = false ).
Proof.
  split; [repeat split|].
  intros H. unfold stopListening.
  destruct (recognitionRef s) as [r|] eqn:Hr; [repeat split|].
  destruct H as [H|H]; [congruence|].
  destruct (reachable_invariant s H) as (_ & _ & Hn).
  destruct (Hn Hr) as [Hi Hl]. repeat split; assumption.
Qed.

Lemma session_end_clears_interim_witness :
  interimTranscript (stopListening None (onresult Sample.event1 Sample.mounted))
    = [] /\
  finalTranscript (stopListening None (onresult Sample.event1 Sample.mounted))
    = lit "chest pain" /\
  isListening (stopListening None (onresult Sample.event1 Sample.mounted))
    = false.
Proof.
  apply (session_end_clears_interim
           (onresult Sample.event1 Sample.mounted) None).
  left. discriminate.
Defined.

(* ----------------------------------------------------------------- *)
(** ** [extractClinicalData] on a blank transcript *)

(** C10: for a transcript that is empty or trims to the empty string,
    extractClinicalData resolves with five empty lists and sends no request,
    whatever the environment: with or without a configured key, whatever the
    client and the parser would do. *)
Theorem blank_transcript_resolves_empty
    (cohereKeyFromEnv : option jsstring)
    (chat : Cohere.ChatPayload -> Cohere.completion Cohere.CohereChatResponse)
    (replace_opening_fence replace_closing_fence toLowerCase
       : jsstring -> jsstring)
    (JSValue : Type)
    (JSON_parse : jsstring -> option JSValue)
    (property : JSValue -> jsstring -> Cohere.completion JSValue)
    (js_truthy : JSValue -> bool)
    (as_array : JSValue -> option (list JSValue))
    (to_string : JSValue -> jsstring)
    (transcript : jsstring) :
  transcript = [] \/ trim transcript = [] ->
  let settled :=
    Cohere.extractClinicalData cohereKeyFromEnv chat replace_opening_fence
      replace_closing_fence toLowerCase JSValue JSON_parse property js_truthy
      as_array to_string transcript in
  Cohere.api_calls settled = [] /\
  exists data,
    Cohere.outcome settled = Cohere.Normal data /\
    Cohere.symptoms data = [] /\ Cohere.history data = [] /\
    Cohere.assessment data = [] /\ Cohere.medications data = [] /\
    Cohere.plan data = [].
Proof.
  intros Hblank. unfold Cohere.extractClinicalData.
  assert (Hguard : negb (truthy transcript) || negb (truthy (trim transcript))
                   = true).
  { destruct Hblank as [-> | ->]; [reflexivity|]. apply orb_true_r. }
  rewrite Hguard. cbn. split; [reflexivity|].
  exists Cohere.emptyClinicalData. repeat split.
Qed.

Lemma blank_transcript_resolves_empty_witness :
  Cohere.api_calls
    (Cohere.extractClinicalData Sample.no_key Sample.failing_chat
       (fun t => t) (fun t => t) (fun t => t) unit (fun _ => None)
       (fun _ _ => Cohere.Throw ThrownOther) (fun _ => false)
       (fun _ => None) (fun _ => []) (lit "   ")) = [].
Proof.
  exact (proj1 (blank_transcript_resolves_empty Sample.no_key
                  Sample.failing_chat (fun t => t) (fun t => t) (fun t => t)
                  unit (fun _ => None) (fun _ _ => Cohere.Throw ThrownOther)
                  (fun _ => false) (fun _ => None) (fun _ => [])
                  (lit "   ") (or_intror eq_refl))).
Defined.

(* ----------------------------------------------------------------- *)
(** ** The examples of the specification, run on the code *)

Example spec_example_first_event :
  finalTranscript (onresult Sample.event1 Sample.mounted) = lit "chest pain" /\
  interimTranscript (onresult Sample.event1 Sample.mounted) = lit "for two".
Proof. split; reflexivity. Qed.

Example spec_example_second_event :
  finalTranscript (onresult Sample.event2 (onresult Sample.event1 Sample.mounted))
    = lit "chest pain for two days" /\
  interimTranscript (onresult Sample.event2 (onresult Sample.event1 Sample.mounted))
    = [].
Proof. split; reflexivity. Qed.

Example trim_strips_unicode_space :
  trim ([160; 9; 8195]%N ++ lit "a b" ++ [10; 12288; 65279]%N) = lit "a b".
Proof. reflexivity. Qed.

Example stop_without_engine_is_noop :
  stopListening None (mountEffect Sample.bare_window initialState)
    = mountEffect Sample.bare_window initialState.
Proof. reflexivity. Qed.

(* ================================================================= *)
(** * Further properties of the accumulator *)

Import Fold.

Lemma in_range_skips_prefix pre rest :
  in_range (pre ++ rest) (len pre) = rest.
Proof.
  unfold in_range, len. rewrite Nat2Z.id, List.skipn_app, List.skipn_all.
  now rewrite Nat.sub_diag.
Qed.

(** X1: the slots before startIndex do not matter: with startIndex at the
    end of a prefix, the scan returns what it returns on the rest alone from
    index 0, whatever the prefix of that length holds. *)
Theorem scan_ignores_stale_slots
    (pre pre' rest : SpeechRecognitionResultListLike) :
  List.length pre = List.length pre' ->
  mapTranscriptSegments (pre ++ rest) (len pre) =
    mapTranscriptSegments (pre' ++ rest) (len pre) /\
  mapTranscriptSegments (pre ++ rest) (len pre) = mapTranscriptSegments rest 0.
Proof.
  intros Hlen. rewrite !mapTranscriptSegments_join.
  rewrite in_range_skips_prefix.
  replace (len pre) with (len pre') by (unfold len; now rewrite Hlen).
  rewrite in_range_skips_prefix. split; reflexivity.
Qed.

Lemma scan_ignores_stale_slots_witness :
  mapTranscriptSegments (Inputs.stale_slots ++ Inputs.three_slots) 2 =
    mapTranscriptSegments (Inputs.other_stale_slots ++ Inputs.three_slots) 2.
Proof.
  exact (proj1 (scan_ignores_stale_slots Inputs.stale_slots
                  Inputs.other_stale_slots Inputs.three_slots eq_refl)).
Defined.

(** X2: an event whose startIndex is at or past the end of its result list
    brings nothing: finalTranscript stays, interimTranscript becomes empty,
    the other cells stay. *)
Theorem event_past_end_clears_interim
    (s : HookState) (event : SpeechRecognitionEventLike) :
  (len (results event) <= resultIndex event)%Z ->
  mapTranscriptSegments (results event) (resultIndex event) =
    {| final := []; interim := [] |} /\
  onresult event s = setInterimTranscript [] s.
Proof.
  intros Hpast.
  assert (Hseg : mapTranscriptSegments (results event) (resultIndex event) =
                 {| final := []; interim := [] |}).
  { rewrite mapTranscriptSegments_join. unfold in_range.
    rewrite List.skipn_all2 by (unfold len in Hpast; lia). reflexivity. }
  split; [exact Hseg|]. unfold onresult. now rewrite Hseg.
Qed.

Lemma event_past_end_clears_interim_witness :
  onresult Inputs.past_end Sample.listening =
    setInterimTranscript [] Sample.listening.
Proof.
  exact (proj2 (event_past_end_clears_interim Sample.listening Inputs.past_end
                  ltac:(vm_compute; discriminate))).
Defined.

Lemma foldEvents_extend events :
  forall s,
    starts_clean (finalTranscript s) = true ->
    finalTranscript (foldEvents events s) =
      List.fold_left extend (List.flat_map final_texts events)
                     (finalTranscript s).
Proof.
  induction events as [|event events IH]; intros s Hs; [reflexivity|].
  unfold foldEvents in *. cbn [List.fold_left List.flat_map].
  rewrite IH.
  - rewrite (onresult_final_extend event s Hs).
    now rewrite List.fold_left_app.
  - rewrite (onresult_final_extend event s Hs).
    apply fold_extend_starts_clean; [apply texts_of_segments | exact Hs].
Qed.

Lemma flat_map_final_texts_truthy events :
  List.Forall (fun t => truthy t = true) (List.flat_map final_texts events).
Proof.
  induction events as [|event events IH]; [constructor|].
  cbn [List.flat_map]. apply List.Forall_app. split; [|exact IH].
  apply texts_of_truthy.
Qed.

(** X3: finalTranscript is a left fold over the final texts ever brought: in
    a reachable state, after any sequence of events, it is the transcript
    before extended by each non-empty final text in range, event by event;
    from an empty transcript it is their space-joined concatenation. *)
Theorem final_transcript_is_left_fold
    (s : HookState) (events : list SpeechRecognitionEventLike) :
  reachable s ->
  finalTranscript (foldEvents events s) =
    List.fold_left extend (List.flat_map final_texts events)
                   (finalTranscript s) /\
  (finalTranscript s = [] ->
   finalTranscript (foldEvents events s) =
     join_space (List.flat_map final_texts events)).
Proof.
  intros Hreach. destruct (reachable_invariant s Hreach) as (Hf & _ & _).
  destruct (well_joined_clean _ Hf) as [Hs _].
  pose proof (foldEvents_extend events s Hs) as Hfold.
  split; [exact Hfold|]. intros Hempty. rewrite Hfold, Hempty.
  rewrite fold_extend_join by apply flat_map_final_texts_truthy. reflexivity.
Qed.

Lemma mounted_reachable : reachable Sample.mounted.
Proof. exists Sample.webkit_window, []. reflexivity. Defined.

Lemma final_transcript_is_left_fold_witness :
  finalTranscript
    (foldEvents [Sample.event1; Sample.provisional; Sample.event2]
                Sample.mounted)
    = join_space [lit "chest pain"; lit "for two days"].
Proof.
  exact (proj2 (final_transcript_is_left_fold Sample.mounted
                  [Sample.event1; Sample.provisional; Sample.event2]
                  mounted_reachable) eq_refl).
Defined.

Lemma onresult_final_congr event s1 s2 :
  finalTranscript s1 = finalTranscript s2 ->
  finalTranscript (onresult event s1) = finalTranscript (onresult event s2).
Proof.
  intros H. unfold onresult.
  destruct (truthy (final _)); cbn; now rewrite ?H.
Qed.

Lemma foldEvents_final_congr events :
  forall s1 s2,
    finalTranscript s1 = finalTranscript s2 ->
    finalTranscript (foldEvents events s1) =
      finalTranscript (foldEvents events s2).
Proof.
  induction events as [|event events IH]; intros s1 s2 H; [exact H|].
  unfold foldEvents in *. cbn [List.fold_left].
  apply IH. now apply onresult_final_congr.
Qed.

Lemma onresult_without_final event s :
  has_final_text event = false ->
  finalTranscript (onresult event s) = finalTranscript s.
Proof. unfold has_final_text, onresult. now intros ->. Qed.

(** X4: events that bring no final text are invisible in finalTranscript:
    after any sequence of events, from any state, finalTranscript is what the
    events with some final text alone would have produced. *)
Theorem interim_events_do_not_change_final
    (s : HookState) (events : list SpeechRecognitionEventLike) :
  finalTranscript (foldEvents events s) =
    finalTranscript (foldEvents (List.filter has_final_text events) s).
Proof.
  revert s. induction events as [|event events IH]; intros s; [reflexivity|].
  cbn [List.filter]. destruct (has_final_text event) eqn:Hfinal.
  - unfold foldEvents in *. cbn [List.fold_left]. apply IH.
  - unfold foldEvents in *. cbn [List.fold_left]. rewrite IH.
    apply (foldEvents_final_congr (List.filter has_final_text events)).
    now apply onresult_without_final.
Qed.

(** X5: results may arrive in one event or in two.  With [before] already
    reported, reporting [first] and then, with startIndex moved behind it,
    [second], gives the same finalTranscript as reporting both at once. *)
Theorem split_event_same_final
    (s : HookState) (before first second : SpeechRecognitionResultListLike) :
  reachable s ->
  finalTranscript
    (foldEvents
       [ {| resultIndex := len before; results := before ++ first |};
         {| resultIndex := len (before ++ first);
            results := (before ++ first) ++ second |} ] s) =
  finalTranscript
    (onresult {| resultIndex := len before;
                 results := before ++ first ++ second |} s).
Proof.
  intros Hreach.
  destruct (reachable_invariant s Hreach) as (Hf & _ & _).
  destruct (well_joined_clean _ Hf) as [Hs _].
  rewrite (foldEvents_extend _ s Hs).
  rewrite (onresult_final_extend _ s Hs).
  unfold final_texts. cbn [List.flat_map results resultIndex].
  rewrite !in_range_skips_prefix, List.app_nil_r.
  now rewrite texts_of_app.
Qed.

Lemma split_event_same_final_witness :
  finalTranscript
    (foldEvents
       [ {| resultIndex := 2;
            results := Inputs.stale_slots ++ Sample.slots_before |};
         {| resultIndex := 3;
            results := (Inputs.stale_slots ++ Sample.slots_before)
                       ++ Sample.slots_after |} ] Sample.mounted) =
  finalTranscript
    (onresult {| resultIndex := 2;
                 results := Inputs.stale_slots ++ Sample.slots_before
                            ++ Sample.slots_after |} Sample.mounted).
Proof.
  exact (split_event_same_final Sample.mounted Inputs.stale_slots
           Sample.slots_before Sample.slots_after mounted_reachable).
Defined.

Lemma onresult_final_with_text event s :
  starts_clean (finalTranscript s) = true ->
  has_final_text event = true ->
  finalTranscript (onresult event s) =
    extend (finalTranscript s)
           (final (mapTranscriptSegments (results event) (resultIndex event))) /\
  truthy (finalTranscript (onresult event s)) = true.
Proof.
  intros Hs Htext. unfold has_final_text in Htext. unfold onresult.
  rewrite Htext. cbn [setFinalTranscript setInterimTranscript finalTranscript].
  unfold extend.
  set (f := final (mapTranscriptSegments (results event) (resultIndex event)))
    in *.
  assert (Hf : ends_clean f = true).
  { subst f. rewrite mapTranscriptSegments_join. cbn [final].
    apply join_space_clean, texts_of_segments. }
  destruct (truthy (finalTranscript s)) eqn:Hp; [|now split].
  rewrite trim_template by assumption. split; [reflexivity|].
  unfold template_sp. destruct (finalTranscript s); [discriminate|reflexivity].
Qed.

(** X6: nothing is recognised as already seen: in a reachable state an event
    that brings final text and is delivered a second time appends that text
    a second time, after one space. *)
Theorem replayed_event_appends_again
    (s : HookState) (event : SpeechRecognitionEventLike) :
  reachable s ->
  has_final_text event = true ->
  finalTranscript (onresult event (onresult event s)) =
    finalTranscript (onresult event s) ++ [space] ++
    final (mapTranscriptSegments (results event) (resultIndex event)).
Proof.
  intros Hreach Htext.
  destruct (reachable_invariant s Hreach) as (Hf & _ & _).
  destruct (onresult_well_joined event s Hf) as [Hf1 _].
  destruct (well_joined_clean _ Hf) as [Hs _].
  destruct (well_joined_clean _ Hf1) as [Hs1 _].
  destruct (onresult_final_with_text event s Hs Htext) as [_ Htruthy].
  destruct (onresult_final_with_text event (onresult event s) Hs1 Htext)
    as [-> _].
  unfold extend. now rewrite Htruthy.
Qed.

Lemma replayed_event_appends_again_witness :
  finalTranscript (onresult Sample.event1 (onresult Sample.event1 Sample.mounted))
    = lit "chest pain chest pain".
Proof.
  exact (replayed_event_appends_again Sample.mounted Sample.event1
           mounted_reachable eq_refl).
Defined.

Lemma step_without_engine s a :
  recognitionRef s = None /\ isListening s = false /\
  finalTranscript s = [] /\ interimTranscript s = [] /\ error s <> None ->
  recognitionRef (step s a) = None /\ isListening (step s a) = false /\
  finalTranscript (step s a) = [] /\ interimTranscript (step s a) = [] /\
  error (step s a) <> None.
Proof.
  intros (Hr & Hl & Hf & Hi & He).
  destruct a as [event|event| |started|stopped]; cbn [step];
    unfold deliver, startListening, stopListening; rewrite Hr;
    try (repeat split; assumption).
  cbn. repeat split; try assumption. discriminate.
Qed.

(** X7: in a browser that has neither constructor the hook never listens
    and never holds a transcript, whatever is called and in whatever order:
    there is no engine object, isListening is false, both transcripts are
    empty and an error message is set. *)
Theorem unsupported_browser_stays_idle
    (window : option ScopedWindow) (actions : list Action) :
  getRecognitionConstructor window = None ->
  let s := run actions (mountEffect window initialState) in
  recognitionRef s = None /\ isListening s = false /\
  finalTranscript s = [] /\ interimTranscript s = [] /\ error s <> None.
Proof.
  intros Hnone. cbv zeta.
  assert (Hmount : recognitionRef (mountEffect window initialState) = None /\
                   isListening (mountEffect window initialState) = false /\
                   finalTranscript (mountEffect window initialState) = [] /\
                   interimTranscript (mountEffect window initialState) = [] /\
                   error (mountEffect window initialState) <> None).
  { unfold mountEffect. rewrite Hnone. cbn. repeat split. discriminate. }
  revert Hmount. generalize (mountEffect window initialState).
  induction actions as [|a actions IH]; intros s Hs; [exact Hs|].
  cbn [run List.fold_left]. apply (IH (step s a)).
  now apply step_without_engine.
Qed.

Lemma unsupported_browser_stays_idle_witness :
  isListening
    (run [CallStart None; EngineResult Sample.event1; CallStop None]
         Inputs.unsupported) = false.
Proof.
  exact (proj1 (proj2 (unsupported_browser_stays_idle Sample.bare_window
                         [CallStart None; EngineResult Sample.event1;
                          CallStop None] eq_refl))).
Defined.

(** X8: stopping does not detach the handlers: when the engine object
    exists, a result event that arrives after [stopListening] is applied as
    if it had arrived before, only isListening is false. *)
Theorem late_event_after_stop_is_applied
    (s : HookState) (stopped : option Thrown)
    (event : SpeechRecognitionEventLike) :
  recognitionRef s <> None ->
  run [CallStop stopped; EngineResult event] s =
    setIsListening false (onresult event s).
Proof.
  intros Hengine. cbn [run List.fold_left step].
  unfold stopListening, deliver.
  destruct (recognitionRef s) as [r|] eqn:Hr; [|congruence].
  cbn [recognitionRef setInterimTranscript setIsListening]. rewrite Hr.
  unfold onresult. destruct (truthy (final _)); reflexivity.
Qed.

Lemma late_event_after_stop_is_applied_witness :
  interimTranscript
    (run [CallStop None; EngineResult Sample.event1] Sample.mounted)
    = lit "for two".
Proof.
  exact (f_equal interimTranscript
           (late_event_after_stop_is_applied Sample.mounted None Sample.event1
              ltac:(discriminate))).
Defined.

(* ----------------------------------------------------------------- *)
(** ** Shape of the transcripts *)

Lemma no_double_space_app_inv (a b : jsstring) :
  no_double_space (a ++ b) = true ->
  no_double_space a = true /\ no_double_space b = true.
Proof.
  induction a as [|c a IH]; intros H; [now split|].
  destruct a as [|d a].
  - split; [reflexivity|]. destruct b as [|e b]; [reflexivity|].
    change (no_double_space ([c] ++ e :: b))
      with (negb (N.eqb c space && N.eqb e space)
            && no_double_space (e :: b)) in H.
    now apply andb_true_iff in H.
  - change (no_double_space ((c :: d :: a) ++ b))
      with (negb (N.eqb c space && N.eqb d space)
            && no_double_space ((d :: a) ++ b)) in H.
    apply andb_true_iff in H. destruct H as [Hcd H].
    destruct (IH H) as [Ha Hb]. split; [|exact Hb].
    change (no_double_space (c :: d :: a))
      with (negb (N.eqb c space && N.eqb d space)
            && no_double_space (d :: a)).
    now rewrite Hcd, Ha.
Qed.

(** The joins add no two spaces in a row and hide none: a join of segments
    has two spaces in a row exactly when one of the segments has. *)
Lemma join_space_double_space (ts : list jsstring) :
  List.Forall segment ts ->
  no_double_space (join_space ts) = true <->
  List.Forall (fun t => no_double_space t = true) ts.
Proof.
  intros Hseg. split; [|now apply join_space_no_double].
  induction ts as [|t ts IH]; intros H; [constructor|].
  inversion Hseg as [|? ? Ht Hts]; subst.
  destruct ts as [|u ts]; [constructor; [exact H | constructor]|].
  rewrite join_space_cons in H by congruence.
  apply no_double_space_app_inv in H. destruct H as [Hhead Htail].
  change (space :: join_space (u :: ts))
    with ([space] ++ join_space (u :: ts)) in Htail.
  apply no_double_space_app_inv in Htail. destruct Htail as [_ Htail].
  constructor; [exact Hhead | now apply IH].
Qed.

Lemma texts_of_from_slot want slots t :
  List.In t (texts_of want slots) ->
  exists slot,
    List.In slot slots /\ slot_is_final slot = want /\ t = slot_text slot.
Proof.
  unfold texts_of. intros Hin. apply List.filter_In in Hin.
  destruct Hin as [Hin _]. apply List.in_map_iff in Hin.
  destruct Hin as [slot [<- Hslot]]. apply List.filter_In in Hslot.
  destruct Hslot as [Hslot Hwant]. exists slot.
  split; [exact Hslot | split; [now apply Bool.eqb_prop | reflexivity]].
Qed.

Lemma action_final_texts_segments a :
  List.Forall segment (action_final_texts a).
Proof.
  destruct a; try constructor. apply texts_of_segments.
Qed.

Lemma step_with_engine s a r :
  recognitionRef s = Some r ->
  starts_clean (finalTranscript s) = true ->
  recognitionRef (step s a) = Some r /\
  finalTranscript (step s a) =
    List.fold_left extend (action_final_texts a) (finalTranscript s) /\
  forall pending,
    interimTranscript s = join_space pending ->
    interimTranscript (step s a) = join_space (pending_after pending a).
Proof.
  intros Hr Hs.
  destruct a as [event|event| |started|stopped]; cbn [step];
    unfold deliver, startListening, stopListening; rewrite Hr.
  - destruct (onresult_frame event s) as (Hr' & _ & _).
    split; [now rewrite Hr' | split].
    + apply (onresult_final_extend event s Hs).
    + intros pending _. apply onresult_interim.
  - split; [exact Hr | split; [reflexivity | now intros pending]].
  - split; [exact Hr | split; [reflexivity | now intros pending]].
  - destruct started as [[message|]|];
      (split; [exact Hr | split; [reflexivity | now intros pending]]).
  - split; [exact Hr | split; [reflexivity | now intros pending]].
Qed.

Lemma run_with_engine actions :
  forall s r pending,
    recognitionRef s = Some r ->
    starts_clean (finalTranscript s) = true ->
    interimTranscript s = join_space pending ->
    finalTranscript (run actions s) =
      List.fold_left extend (List.flat_map action_final_texts actions)
                     (finalTranscript s) /\
    interimTranscript (run actions s) =
      join_space (List.fold_left pending_after actions pending).
Proof.
  induction actions as [|a actions IH]; intros s r pending Hr Hs Hi;
    [now split|].
  destruct (step_with_engine s a r Hr Hs) as (Hr' & Hf' & Hi').
  cbn [run List.fold_left List.flat_map].
  destruct (IH (step s a) r (pending_after pending a) Hr') as [Hf Hp].
  - rewrite Hf'. apply fold_extend_starts_clean;
      [apply action_final_texts_segments | exact Hs].
  - now apply Hi'.
  - split; [|exact Hp]. unfold run in Hf. rewrite Hf, Hf'.
    now rewrite List.fold_left_app.
Qed.

Lemma run_without_engine actions :
  forall s,
    recognitionRef s = None /\ isListening s = false /\
    finalTranscript s = [] /\ interimTranscript s = [] /\ error s <> None ->
    finalTranscript (run actions s) = [] /\
    interimTranscript (run actions s) = [].
Proof.
  induction actions as [|a actions IH]; intros s Hs.
  - destruct Hs as (_ & _ & Hf & Hi & _). now split.
  - cbn [run List.fold_left]. apply (IH (step s a)).
    now apply step_without_engine.
Qed.

Lemma heard_segments (actions : list Action) :
  List.Forall segment (List.flat_map action_final_texts actions).
Proof.
  induction actions as [|a actions IH]; [constructor|].
  cbn [List.flat_map]. apply List.Forall_app.
  split; [apply action_final_texts_segments | exact IH].
Qed.

Lemma pending_segments (actions : list Action) :
  forall pending,
    List.Forall segment pending ->
    List.Forall segment (List.fold_left pending_after actions pending).
Proof.
  induction actions as [|a actions IH]; intros pending Hp; [exact Hp|].
  cbn [List.fold_left]. apply IH.
  destruct a; cbn [pending_after]; try exact Hp; try constructor.
  apply texts_of_segments.
Qed.

Lemma heard_from_result (actions : list Action) (t : jsstring) :
  List.In t (List.flat_map action_final_texts actions) ->
  from_result true actions t.
Proof.
  intros Hin. apply List.in_flat_map in Hin.
  destruct Hin as [a [Ha Ht]].
  destruct a as [event|event| |started|stopped]; try contradiction.
  cbn [action_final_texts] in Ht. unfold final_texts in Ht.
  destruct (texts_of_from_slot _ _ _ Ht) as [slot (Hslot & Hfinal & Heq)].
  exists event, slot. repeat split; assumption.
Qed.

Lemma pending_from_result (all : list Action) (actions : list Action) :
  forall pending,
    (forall a, List.In a actions -> List.In a all) ->
    (forall t, List.In t pending -> from_result false all t) ->
    forall t,
      List.In t (List.fold_left pending_after actions pending) ->
      from_result false all t.
Proof.
  induction actions as [|a actions IH]; intros pending Hsub Hp t Hin;
    [now apply Hp|].
  cbn [List.fold_left] in Hin.
  apply (IH (pending_after pending a)); [| |exact Hin].
  - intros b Hb. apply Hsub. now right.
  - intros u Hu.
    destruct a as [event|event| |started|stopped]; cbn [pending_after] in Hu;
      try contradiction; try (now apply Hp).
    unfold interim_texts in Hu.
    destruct (texts_of_from_slot _ _ _ Hu) as [slot (Hslot & Hfinal & Heq)].
    exists event, slot. repeat split; try assumption.
    apply Hsub. now left.
Qed.

Lemma segments_shape (t : jsstring) (segments : list jsstring) :
  List.Forall segment segments ->
  t = join_space segments ->
  no_outer_space t /\
  (no_double_space t = true <->
   List.Forall (fun seg => no_double_space seg = true) segments).
Proof.
  intros Hseg ->. split.
  - destruct (join_space_clean segments Hseg).
    now apply clean_no_outer_space.
  - now apply join_space_double_space.
Qed.

(** C9: every state the mounted hook reaches, by any sequence of result,
    error and end events, starts and stops, has a finalTranscript that is
    exactly the final texts heard since the mount with one space between two
    neighbours, and an interimTranscript that is exactly the pending interim
    texts with one space between two neighbours.  Each of these texts is the
    non-empty trimmed text of a result in range of a result event; so both
    transcripts have no white space at the front and none at the back, and
    two spaces in a row occur in a transcript exactly when they occur inside
    one of these texts: the joins add none. *)
Theorem transcripts_well_joined
    (window : option ScopedWindow) (actions : list Action) :
  let s := run actions (mountEffect window initialState) in
  ( finalTranscript s = join_space (texts_heard window actions) /\
    List.Forall segment (texts_heard window actions) /\
    (forall t, List.In t (texts_heard window actions) ->
               from_result true actions t) /\
    no_outer_space (finalTranscript s) /\
    (no_double_space (finalTranscript s) = true <->
     List.Forall (fun t => no_double_space t = true)
                 (texts_heard window actions)) ) /\
  ( interimTranscript s = join_space (texts_pending window actions) /\
    List.Forall segment (texts_pending window actions) /\
    (forall t, List.In t (texts_pending window actions) ->
               from_result false actions t) /\
    no_outer_space (interimTranscript s) /\
    (no_double_space (interimTranscript s) = true <->
     List.Forall (fun t => no_double_space t = true)
                 (texts_pending window actions)) ).
Proof.
  cbv zeta.
  assert (Hjoin :
    finalTranscript (run actions (mountEffect window initialState)) =
      join_space (texts_heard window actions) /\
    interimTranscript (run actions (mountEffect window initialState)) =
      join_space (texts_pending window actions)).
  { unfold texts_heard, texts_pending, mountEffect.
    destruct (getRecognitionConstructor window) as [ctor|].
    - destruct (run_with_engine actions
                  (setRecognitionRef
                     (Some {| continuous := true; interimResults := true;
                              lang := lit "en-US" |}) initialState)
                  {| continuous := true; interimResults := true;
                     lang := lit "en-US" |} [] eq_refl eq_refl eq_refl)
        as [Hf Hi].
      split; [|exact Hi]. rewrite Hf. cbn [finalTranscript setRecognitionRef
                                           initialState].
      rewrite fold_extend_join by apply segments_truthy, heard_segments.
      reflexivity.
    - apply run_without_engine. cbn. repeat split. discriminate. }
  destruct Hjoin as [Hfinal Hinterim].
  assert (Hheard : List.Forall segment (texts_heard window actions)).
  { unfold texts_heard. destruct (getRecognitionConstructor window);
      [apply heard_segments | constructor]. }
  assert (Hpending : List.Forall segment (texts_pending window actions)).
  { unfold texts_pending. destruct (getRecognitionConstructor window);
      [apply pending_segments | constructor]; constructor. }
  destruct (segments_shape _ _ Hheard Hfinal) as [Hfo Hfd].
  destruct (segments_shape _ _ Hpending Hinterim) as [Hio Hid].
  split.
  - split; [exact Hfinal | split; [exact Hheard | split; [|now split]]].
    intros t. unfold texts_heard.
    destruct (getRecognitionConstructor window); [|contradiction].
    apply heard_from_result.
  - split; [exact Hinterim | split; [exact Hpending | split; [|now split]]].
    intros t. unfold texts_pending.
    destruct (getRecognitionConstructor window); [|contradiction].
    apply (pending_from_result actions actions []); [auto | contradiction].
Qed.

Lemma transcripts_well_joined_witness :
  finalTranscript
    (run [CallStart None; EngineResult Sample.event1;
          EngineResult Sample.provisional; EngineResult Sample.event2]
         Sample.mounted)
    = join_space [lit "chest pain"; lit "for two days"] /\
  from_result true
    [CallStart None; EngineResult Sample.event1;
     EngineResult Sample.provisional; EngineResult Sample.event2]
    (lit "for two days").
Proof.
  destruct (transcripts_well_joined Sample.webkit_window
              [CallStart None; EngineResult Sample.event1;
               EngineResult Sample.provisional; EngineResult Sample.event2])
    as [(Hfinal & _ & Hfrom & _) _].
  split; [exact Hfinal|].
  apply Hfrom. right. left. reflexivity.
Defined.

(* ================================================================= *)
(** * Properties of the clinical extraction call *)

Lemma trim_nil : trim [] = [].
Proof. reflexivity. Qed.

Lemma trim_truthy_inv (t : jsstring) :
  truthy (trim t) = true -> truthy t = true.
Proof. destruct t; [discriminate | reflexivity]. Qed.

Section ExtractionFacts.

Variable cohereKeyFromEnv : option jsstring.
Variable chat : Cohere.ChatPayload -> Cohere.completion Cohere.CohereChatResponse.
Variable replace_opening_fence : jsstring -> jsstring.
Variable replace_closing_fence : jsstring -> jsstring.
Variable toLowerCase : jsstring -> jsstring.
Variable JSValue : Type.
Variable JSON_parse : jsstring -> option JSValue.
Variable property : JSValue -> jsstring -> Cohere.completion JSValue.
Variable js_truthy : JSValue -> bool.
Variable as_array : JSValue -> option (list JSValue).
Variable to_string : JSValue -> jsstring.

Local Abbreviation extract :=
  (Cohere.extractClinicalData cohereKeyFromEnv chat replace_opening_fence
     replace_closing_fence toLowerCase JSValue JSON_parse property js_truthy
     as_array to_string).

Local Abbreviation decode :=
  (Cohere.decodeResponse replace_opening_fence replace_closing_fence
     toLowerCase JSValue JSON_parse property js_truthy as_array to_string).

Local Abbreviation strip :=
  (Cohere.stripCodeFence replace_opening_fence replace_closing_fence).

Local Abbreviation key := (Cohere.COHERE_API_KEY cohereKeyFromEnv).

(** The request the function sends for a transcript. *)
Local Abbreviation request transcript :=
  {| Cohere.model := lit "command-a-03-2025";
     Cohere.preamble := Cohere.systemPrompt;
     Cohere.payload_message := trim transcript |}.

Lemma extract_unfold_nonblank (transcript : jsstring) :
  truthy (trim transcript) = true ->
  extract transcript =
    if truthy key then
      {| Cohere.api_calls := [request transcript];
         Cohere.outcome :=
           Cohere.rethrow
             (Cohere.bind (chat (request transcript)) (fun data => decode data)) |}
    else
      {| Cohere.api_calls := [];
         Cohere.outcome :=
           Cohere.Throw
             (ThrownError (lit "Missing Cohere API key (set COHERE_API_KEY)")) |}.
Proof.
  intros Htrim. pose proof (trim_truthy_inv _ Htrim) as Hraw.
  unfold Cohere.extractClinicalData. rewrite Htrim, Hraw. cbn [negb orb].
  destruct (truthy key); reflexivity.
Qed.

(** X9: with a transcript that has some text but no configured key (none, or
    the empty string), extractClinicalData sends no request and rejects with
    the missing-key error. *)
Theorem extract_without_key_rejects (transcript : jsstring) :
  truthy (trim transcript) = true ->
  key = [] ->
  Cohere.api_calls (extract transcript) = [] /\
  Cohere.outcome (extract transcript) =
    Cohere.Throw
      (ThrownError (lit "Missing Cohere API key (set COHERE_API_KEY)")).
Proof.
  intros Htrim Hkey. rewrite (extract_unfold_nonblank _ Htrim), Hkey.
  split; reflexivity.
Qed.

(** X10: with a key and a transcript that has some text, exactly one request
    goes out; its message is the trimmed transcript, which has no white space
    at either end, its model is command-a-03-2025 and its preamble the system
    prompt. *)
Theorem extract_sends_one_trimmed_request (transcript : jsstring) :
  truthy (trim transcript) = true ->
  truthy key = true ->
  Cohere.api_calls (extract transcript) = [request transcript] /\
  no_outer_space (trim transcript).
Proof.
  intros Htrim Hkey. rewrite (extract_unfold_nonblank _ Htrim), Hkey.
  split; [reflexivity|].
  apply clean_no_outer_space; [apply trim_starts_clean | apply trim_ends_clean].
Qed.

(** X11: white space around the transcript changes nothing: the call on a
    transcript and the call on the trimmed transcript send the same requests
    and settle the same way. *)
Theorem extract_depends_on_trimmed_transcript (transcript : jsstring) :
  extract transcript = extract (trim transcript).
Proof.
  destruct (truthy (trim transcript)) eqn:Htrim.
  - rewrite (extract_unfold_nonblank _ Htrim).
    rewrite (extract_unfold_nonblank (trim transcript))
      by now rewrite trim_idempotent.
    now rewrite trim_idempotent.
  - unfold Cohere.extractClinicalData. rewrite trim_idempotent, Htrim.
    cbn [negb]. now rewrite !orb_true_r.
Qed.

Lemma rethrow_is_error (c : Cohere.completion Cohere.ClinicalData) :
  Cohere.rethrow c <> Cohere.Throw ThrownOther.
Proof. destruct c as [v|[m|]]; discriminate. Qed.

(** X12: whatever the transcript and the environment, extractClinicalData
    sends at most one request, and when its promise is rejected the reason
    is an Error with a message, never another value. *)
Theorem extract_rejects_with_errors_only (transcript : jsstring) :
  (List.length (Cohere.api_calls (extract transcript)) <= 1)%nat /\
  Cohere.outcome (extract transcript) <> Cohere.Throw ThrownOther.
Proof.
  destruct (truthy (trim transcript)) eqn:Htrim.
  - rewrite (extract_unfold_nonblank _ Htrim).
    destruct (truthy key); cbn [Cohere.api_calls Cohere.outcome List.length].
    + split; [lia | apply rethrow_is_error].
    + split; [lia | discriminate].
  - unfold Cohere.extractClinicalData. rewrite Htrim. cbn [negb].
    rewrite orb_true_r. cbn. split; [lia | discriminate].
Qed.

(** X13: when the client rejects the request, the promise is rejected too:
    with the same Error if the reason is an Error, with the error
    "Unexpected error during extractClinicalData" otherwise.  Nothing is
    parsed. *)
Theorem extract_propagates_client_failure
    (transcript : jsstring) (reason : Thrown) :
  truthy (trim transcript) = true ->
  truthy key = true ->
  chat (request transcript) = Cohere.Throw reason ->
  Cohere.outcome (extract transcript) =
    Cohere.Throw
      (ThrownError
         match reason with
         | ThrownError message => message
         | ThrownOther => lit "Unexpected error during extractClinicalData"
         end).
Proof.
  intros Htrim Hkey Hchat. rewrite (extract_unfold_nonblank _ Htrim), Hkey.
  cbn [Cohere.outcome]. rewrite Hchat. now destruct reason.
Qed.

Lemma strip_unfenced (text : jsstring) :
  startsWith (trim text) (lit "```") = false -> strip text = trim text.
Proof. intros H. unfold Cohere.stripCodeFence. now rewrite H. Qed.

(** X14: a response without message content, without text and without chat
    history is rejected with "Cohere API returned empty content", after the
    one request, whatever the parser would accept. *)
Theorem extract_rejects_empty_response (transcript : jsstring) :
  truthy (trim transcript) = true ->
  truthy key = true ->
  chat (request transcript) =
    Cohere.Normal {| Cohere.message := None; Cohere.text := None;
                     Cohere.chat_history := None |} ->
  Cohere.api_calls (extract transcript) = [request transcript] /\
  Cohere.outcome (extract transcript) =
    Cohere.Throw (ThrownError (lit "Cohere API returned empty content")).
Proof.
  intros Htrim Hkey Hchat. rewrite (extract_unfold_nonblank _ Htrim), Hkey.
  cbn [Cohere.api_calls Cohere.outcome]. rewrite Hchat.
  split; reflexivity.
Qed.

(** X15: stripCodeFence returns a trimmed text; on a text that, trimmed,
    does not start with three backticks, it is [trim], and applying it twice
    is applying it once. *)
Theorem strip_code_fence_trims (text : jsstring) :
  trim (strip text) = strip text /\
  (startsWith (trim text) (lit "```") = false ->
   strip text = trim text /\ strip (strip text) = strip text).
Proof.
  split.
  - unfold Cohere.stripCodeFence.
    destruct (startsWith (trim text) (lit "```")); apply trim_idempotent.
  - intros H. rewrite (strip_unfenced _ H). split; [reflexivity|].
    rewrite strip_unfenced; rewrite trim_idempotent; [reflexivity | exact H].
Qed.

(** X16: the first source of text that is not empty wins: when the message
    content yields text, the fields text and chat_history of the response
    are not looked at. *)
Theorem response_text_prefers_content
    (data : Cohere.CohereChatResponse) (parts : list (option Cohere.CohereContentPart))
    (other_text : option jsstring)
    (other_history : option (list Cohere.ChatHistoryEntry)) :
  Cohere.message data = Some {| Cohere.content := Some parts |} ->
  truthy (Cohere.extractText (Some parts)) = true ->
  Cohere.responseText replace_opening_fence replace_closing_fence toLowerCase
    data =
  strip (Cohere.extractText (Some parts)) /\
  Cohere.responseText replace_opening_fence replace_closing_fence toLowerCase
    {| Cohere.message := Cohere.message data; Cohere.text := other_text;
       Cohere.chat_history := other_history |} =
  Cohere.responseText replace_opening_fence replace_closing_fence toLowerCase
    data.
Proof.
  intros Hmsg Htext. unfold Cohere.responseText. cbn [Cohere.message].
  rewrite Hmsg. cbn [Cohere.content]. cbv zeta.
  rewrite Htext. cbn [negb]. rewrite Htext. cbn [negb].
  split; reflexivity.
Qed.

(** X17: every string ensureStringArray returns is non-empty and trimmed,
    and a falsy value gives the empty list. *)
Theorem ensure_string_array_clean (value : JSValue) :
  List.Forall segment
    (Cohere.ensureStringArray JSValue js_truthy as_array to_string value) /\
  (js_truthy value = false ->
   Cohere.ensureStringArray JSValue js_truthy as_array to_string value = []).
Proof.
  assert (Hfilter : forall l : list jsstring,
            List.Forall (fun t => trim t = t) l ->
            List.Forall segment (List.filter truthy l)).
  { intros l Hl. apply List.Forall_forall. intros t Ht.
    apply List.filter_In in Ht. destruct Ht as [Hin Ht].
    rewrite List.Forall_forall in Hl. split; [|now apply Hl].
    destruct t; [discriminate | congruence]. }
  unfold Cohere.ensureStringArray. split.
  - destruct (js_truthy value); cbn [negb]; [|constructor].
    destruct (as_array value) as [items|]; apply Hfilter.
    + apply List.Forall_forall. intros t Ht.
      apply List.in_map_iff in Ht. destruct Ht as [item [<- _]].
      apply trim_idempotent.
    + constructor; [apply trim_idempotent | constructor].
  - now intros ->.
Qed.

End ExtractionFacts.

(** The theorems of the section at the sample environment: the two regular
    expressions of the source, the identity for [toLowerCase] and a parser
    that rejects everything. *)
Ltac at_sample_env theorem key chat :=
  exact (theorem key chat Fence.replaceOpeningFence Fence.replaceClosingFence
           (fun t : jsstring => t) unit (fun _ : jsstring => @None unit)
           (fun (_ : unit) (_ : jsstring) => @Cohere.Throw unit ThrownOther)
           (fun _ : unit => false) (fun _ : unit => @None (list unit))
           (fun _ : unit => @nil N)).

Lemma extract_without_key_rejects_witness :
  Cohere.outcome (Inputs.extract_with Sample.no_key Inputs.answering_chat
                    (lit " fever for two days ")) =
    Cohere.Throw
      (ThrownError (lit "Missing Cohere API key (set COHERE_API_KEY)")).
Proof.
  apply (ltac:(at_sample_env extract_without_key_rejects Sample.no_key
                 Inputs.answering_chat) (lit " fever for two days ")
           eq_refl eq_refl).
Defined.

Lemma extract_sends_one_trimmed_request_witness :
  List.map Cohere.payload_message
    (Cohere.api_calls
       (Inputs.extract_with Inputs.a_key Inputs.answering_chat
          (lit " fever for two days "))) = [lit "fever for two days"].
Proof.
  exact (f_equal (List.map Cohere.payload_message)
           (proj1 (ltac:(at_sample_env extract_sends_one_trimmed_request
                           Inputs.a_key Inputs.answering_chat)
                     (lit " fever for two days ") eq_refl eq_refl))).
Defined.

Lemma extract_propagates_client_failure_witness :
  Cohere.outcome (Inputs.extract_with Inputs.a_key Sample.failing_chat
                    (lit "fever")) =
    Cohere.Throw
      (ThrownError (lit "Unexpected error during extractClinicalData")).
Proof.
  exact (ltac:(at_sample_env extract_propagates_client_failure Inputs.a_key
                 Sample.failing_chat) (lit "fever") ThrownOther
           eq_refl eq_refl eq_refl).
Defined.

Lemma extract_rejects_empty_response_witness :
  Cohere.outcome
    (Inputs.extract_with Inputs.a_key
       (fun _ => Cohere.Normal {| Cohere.message := None; Cohere.text := None;
                                  Cohere.chat_history := None |})
       (lit "fever")) =
    Cohere.Throw (ThrownError (lit "Cohere API returned empty content")).
Proof.
  exact (proj2 (ltac:(at_sample_env extract_rejects_empty_response Inputs.a_key
                        (fun _ : Cohere.ChatPayload =>
                           Cohere.Normal
                             {| Cohere.message := None; Cohere.text := None;
                                Cohere.chat_history := None |}))
                  (lit "fever") eq_refl eq_refl eq_refl)).
Defined.

Lemma strip_code_fence_trims_witness :
  Fence.stripCodeFence (Fence.stripCodeFence (lit "  {}  ")) =
    Fence.stripCodeFence (lit "  {}  ").
Proof.
  exact (proj2 (proj2 (strip_code_fence_trims Fence.replaceOpeningFence
                         Fence.replaceClosingFence (lit "  {}  ")) eq_refl)).
Defined.

Lemma response_text_prefers_content_witness :
  Cohere.responseText Fence.replaceOpeningFence Fence.replaceClosingFence
    (fun t => t)
    {| Cohere.message :=
         Some {| Cohere.content :=
                   Some [Some {| Cohere.part_type := None;
                                 Cohere.part_text := Some (lit " {} ") |}] |};
       Cohere.text := Some (lit "ignored");
       Cohere.chat_history := None |} = lit "{}".
Proof.
  exact (proj1 (response_text_prefers_content Fence.replaceOpeningFence
                  Fence.replaceClosingFence (fun t => t)
                  {| Cohere.message :=
                       Some {| Cohere.content :=
                                 Some [Some {| Cohere.part_type := None;
                                               Cohere.part_text :=
                                                 Some (lit " {} ") |}] |};
                     Cohere.text := Some (lit "ignored");
                     Cohere.chat_history := None |}
                  [Some {| Cohere.part_type := None;
                           Cohere.part_text := Some (lit " {} ") |}]
                  None None eq_refl eq_refl)).
Defined.

Lemma ensure_string_array_clean_witness :
  Cohere.ensureStringArray (option jsstring)
    (fun v => match v with Some _ => true | None => false end)
    (fun _ => None)
    (fun v => match v with Some t => t | None => [] end) None = [].
Proof.
  exact (proj2 (ensure_string_array_clean (option jsstring)
                  (fun v => match v with Some _ => true | None => false end)
                  (fun _ => None)
                  (fun v => match v with Some t => t | None => [] end) None)
               eq_refl).
Defined.

(* ----------------------------------------------------------------- *)
(** ** [extractText] *)

(** X18: extractText returns exactly the trimmed texts of the parts, those
    that are not empty, in order and with one space between two neighbours;
    the final [trim] of the source removes nothing from that join, the
    result has no white space at either end, and a content that is not an
    array gives the empty string. *)
Theorem extract_text_is_joined
    (parts : list (option Cohere.CohereContentPart)) :
  Cohere.extractText (Some parts) =
    join_space (List.filter truthy (List.map part_trimmed_text parts)) /\
  trim (join_space (List.filter truthy (List.map part_trimmed_text parts))) =
    join_space (List.filter truthy (List.map part_trimmed_text parts)) /\
  List.Forall segment (List.filter truthy (List.map part_trimmed_text parts)) /\
  well_joined (Cohere.extractText (Some parts)) /\
  no_outer_space (Cohere.extractText (Some parts)) /\
  Cohere.extractText None = [].
Proof.
  set (texts := List.filter truthy (List.map part_trimmed_text parts)).
  assert (Hseg : List.Forall segment texts).
  { subst texts. apply List.Forall_forall. intros t Ht.
    apply List.filter_In in Ht. destruct Ht as [Hin Ht].
    apply List.in_map_iff in Hin. destruct Hin as [part [<- _]].
    split; [intros E; rewrite E in Ht; discriminate|].
    destruct part as [p|]; [|reflexivity]. unfold part_trimmed_text.
    destruct (Cohere.part_text p); [apply trim_idempotent | reflexivity]. }
  destruct (join_space_clean texts Hseg) as [Hs He].
  assert (Htrim : trim (join_space texts) = join_space texts)
    by now apply trim_id.
  assert (Heq : Cohere.extractText (Some parts) = join_space texts).
  { unfold Cohere.extractText. fold part_trimmed_text. fold texts.
    exact Htrim. }
  split; [exact Heq | split; [exact Htrim | split; [exact Hseg|]]].
  rewrite Heq.
  split; [exists texts; now split | split; [|reflexivity]].
  now apply clean_no_outer_space.
Qed.

(* ----------------------------------------------------------------- *)
(** ** The fence around an answer *)

Lemma skip_while_white_space (s : jsstring) :
  Fence.skip_while is_white_space s = trimStart s.
Proof.
  induction s as [|c s IH]; [reflexivity|]. simpl.
  destruct (is_white_space c); [exact IH | reflexivity].
Qed.

Lemma skip_while_stops (p : N -> bool) (l : jsstring) (c : N) (r : jsstring) :
  List.forallb p l = true -> p c = false ->
  Fence.skip_while p (l ++ c :: r) = c :: r.
Proof.
  intros Hl Hc. induction l as [|a l IH]; simpl.
  - now rewrite Hc.
  - simpl in Hl. apply andb_true_iff in Hl. destruct Hl as [Ha Hl].
    rewrite Ha. now apply IH.
Qed.

Lemma replace_closing_at_end (l : jsstring) :
  List.forallb (fun c => negb (N.eqb c Fence.backtick)) l = true ->
  Fence.replaceClosingFence (l ++ Fence.fence) = l.
Proof.
  induction l as [|c l IH]; intros Hl; [reflexivity|].
  simpl in Hl. apply andb_true_iff in Hl. destruct Hl as [Hc Hl].
  change ((c :: l) ++ Fence.fence) with (c :: l ++ Fence.fence).
  apply negb_true_iff in Hc.
  assert (Hmatch : Fence.match_closing (c :: l ++ Fence.fence) = None).
  { unfold Fence.match_closing, Fence.fence. cbn [startsWith].
    now rewrite Hc. }
  unfold Fence.replaceClosingFence; fold Fence.replaceClosingFence.
  rewrite Hmatch. now rewrite (IH Hl).
Qed.

Lemma trim_drops_line_break (body : jsstring) :
  trim body = body -> trim (body ++ [10%N]) = body.
Proof.
  intros Hbody. destruct body as [|c body]; [reflexivity|].
  assert (Hs : starts_clean (c :: body) = true)
    by (rewrite <- Hbody; apply trim_starts_clean).
  assert (He : ends_clean (c :: body) = true)
    by (rewrite <- Hbody; apply trim_ends_clean).
  unfold trim. rewrite trimStart_id by exact Hs.
  unfold trimEnd. rewrite List.rev_app_distr. cbn [List.rev List.app].
  change (trimStart (10%N :: (List.rev body ++ [c])))
    with (trimStart (List.rev body ++ [c])).
  change (List.rev body ++ [c]) with (List.rev (c :: body)).
  fold (trimEnd (c :: body)). now apply trimEnd_id.
Qed.

Lemma startsWith_app (prefix rest : jsstring) :
  startsWith (prefix ++ rest) prefix = true.
Proof.
  induction prefix as [|c prefix IH]; [now destruct rest|].
  cbn. now rewrite N.eqb_refl, IH.
Qed.

Lemma replace_opening_at_start (s rest : jsstring) :
  Fence.match_opening s = Some rest -> Fence.replaceOpeningFence s = rest.
Proof.
  intros H. unfold Fence.replaceOpeningFence.
  destruct s as [|c s]; [discriminate|].
  cbn [Fence.replace_opening_from]. now rewrite H.
Qed.

Lemma trim_fenced (language body : jsstring) :
  trim (Fence.fenced language body) = Fence.fenced language body.
Proof.
  unfold Fence.fenced. apply trim_id; [reflexivity|].
  rewrite !List.app_assoc. now rewrite ends_clean_app.
Qed.

Lemma strip_fenced_body (language body : jsstring) :
  List.forallb Fence.is_ascii_letter language = true ->
  List.forallb (fun c => negb (N.eqb c Fence.backtick)) body = true ->
  trim body = body ->
  Fence.stripCodeFence (Fence.fenced language body) = body.
Proof.
  intros Hlang Hticks Hbody.
  unfold Fence.stripCodeFence, Cohere.stripCodeFence, Fence.fenced.
  set (inner := language ++ [10%N] ++ body ++ [10%N] ++ Fence.fence).
  assert (Htrim : trim (Fence.fence ++ inner) = Fence.fence ++ inner).
  { apply trim_id; [reflexivity|].
    subst inner. rewrite !List.app_assoc.
    now rewrite ends_clean_app. }
  rewrite Htrim.
  change (lit "```") with Fence.fence. rewrite startsWith_app.
  assert (Hopen : Fence.replaceOpeningFence (Fence.fence ++ inner) =
                  trimStart (body ++ [10%N] ++ Fence.fence)).
  { apply replace_opening_at_start.
    unfold Fence.match_opening. rewrite startsWith_app. f_equal.
    change (List.skipn 3 (Fence.fence ++ inner)) with inner.
    subst inner.
    change (language ++ [10%N] ++ body ++ [10%N] ++ Fence.fence)
      with (language ++ 10%N :: (body ++ [10%N] ++ Fence.fence)).
    rewrite skip_while_stops by (exact Hlang || reflexivity).
    rewrite skip_while_white_space. reflexivity. }
  rewrite Hopen.
  destruct body as [|c body].
  - reflexivity.
  - assert (Hs : starts_clean (c :: body) = true)
      by (rewrite <- Hbody; apply trim_starts_clean).
    rewrite trimStart_id by exact Hs.
    rewrite List.app_assoc, replace_closing_at_end.
    + now apply trim_drops_line_break.
    + rewrite List.forallb_app, Hticks. reflexivity.
Qed.

(** X19: a body wrapped in a code fence comes back as it was.  For a
    language tag made of ASCII letters and a trimmed body without backticks,
    stripCodeFence of the opening with the tag, a line break, the body, a
    line break and the closing is the body. *)
Theorem strip_code_fence_unwraps (language body : jsstring) :
  List.forallb Fence.is_ascii_letter language = true ->
  List.forallb (fun c => negb (N.eqb c Fence.backtick)) body = true ->
  trim body = body ->
  Fence.stripCodeFence (Fence.fenced language body) = body.
Proof.
  intros Hlang Hticks Hbody. now apply strip_fenced_body.
Qed.

Lemma strip_code_fence_unwraps_witness :
  Fence.stripCodeFence
    (Fence.fenced (lit "json") (lit "{ plan: [rest, fluids] }"))
    = lit "{ plan: [rest, fluids] }".
Proof.
  exact (strip_code_fence_unwraps (lit "json")
           (lit "{ plan: [rest, fluids] }") eq_refl eq_refl eq_refl).
Defined.

(** X27: a fenced answer is decoded end to end.  With a key and a
    transcript that has some text, when the client answers without message
    content and with a text field that holds a fenced, non-empty, trimmed
    body without backticks, the parser receives that body; when it accepts
    it and the five fields can be read, the promise resolves with the five
    lists ensureStringArray makes of them. *)
Theorem fenced_answer_is_decoded
    (cohereKeyFromEnv : option jsstring)
    (chat : Cohere.ChatPayload -> Cohere.completion Cohere.CohereChatResponse)
    (toLowerCase : jsstring -> jsstring)
    (JSValue : Type)
    (JSON_parse : jsstring -> option JSValue)
    (property : JSValue -> jsstring -> Cohere.completion JSValue)
    (js_truthy : JSValue -> bool)
    (as_array : JSValue -> option (list JSValue))
    (to_string : JSValue -> jsstring)
    (transcript language body : jsstring)
    (history : option (list Cohere.ChatHistoryEntry))
    (parsed symptoms_v history_v assessment_v medications_v plan_v : JSValue) :
  truthy (trim transcript) = true ->
  truthy (Cohere.COHERE_API_KEY cohereKeyFromEnv) = true ->
  chat {| Cohere.model := lit "command-a-03-2025";
          Cohere.preamble := Cohere.systemPrompt;
          Cohere.payload_message := trim transcript |} =
    Cohere.Normal {| Cohere.message := None;
                     Cohere.text := Some (Fence.fenced language body);
                     Cohere.chat_history := history |} ->
  List.forallb Fence.is_ascii_letter language = true ->
  List.forallb (fun c => negb (N.eqb c Fence.backtick)) body = true ->
  trim body = body ->
  body <> [] ->
  JSON_parse body = Some parsed ->
  property parsed (lit "symptoms") = Cohere.Normal symptoms_v ->
  property parsed (lit "history") = Cohere.Normal history_v ->
  property parsed (lit "assessment") = Cohere.Normal assessment_v ->
  property parsed (lit "medications") = Cohere.Normal medications_v ->
  property parsed (lit "plan") = Cohere.Normal plan_v ->
  Cohere.outcome
    (Cohere.extractClinicalData cohereKeyFromEnv chat
       Fence.replaceOpeningFence Fence.replaceClosingFence toLowerCase JSValue
       JSON_parse property js_truthy as_array to_string transcript) =
  Cohere.Normal
    {| Cohere.symptoms :=
         Cohere.ensureStringArray JSValue js_truthy as_array to_string symptoms_v;
       Cohere.history :=
         Cohere.ensureStringArray JSValue js_truthy as_array to_string history_v;
       Cohere.assessment :=
         Cohere.ensureStringArray JSValue js_truthy as_array to_string assessment_v;
       Cohere.medications :=
         Cohere.ensureStringArray JSValue js_truthy as_array to_string medications_v;
       Cohere.plan :=
         Cohere.ensureStringArray JSValue js_truthy as_array to_string plan_v |}.
Proof.
  intros Htrim Hkey Hchat Hlang Hticks Hbody Hne Hparse Hs Hh Ha Hm Hp.
  rewrite (extract_unfold_nonblank cohereKeyFromEnv chat
             Fence.replaceOpeningFence Fence.replaceClosingFence toLowerCase
             JSValue JSON_parse property js_truthy as_array to_string _ Htrim).
  rewrite Hkey. cbn [Cohere.outcome]. rewrite Hchat. cbn [Cohere.bind].
  assert (Htext : Cohere.responseText Fence.replaceOpeningFence
                    Fence.replaceClosingFence toLowerCase
                    {| Cohere.message := None;
                       Cohere.text := Some (Fence.fenced language body);
                       Cohere.chat_history := history |} = body).
  { unfold Cohere.responseText.
    cbn [Cohere.message Cohere.text Cohere.extractText truthy negb].
    cbv zeta. rewrite trim_fenced.
    assert (Hfenced : truthy (Fence.fenced language body) = true)
      by reflexivity.
    rewrite Hfenced. cbn [negb].
    now apply strip_fenced_body. }
  unfold Cohere.decodeResponse. cbv zeta. rewrite Htext.
  assert (Hbt : truthy body = true)
    by (destruct body; [congruence | reflexivity]).
  rewrite Hbt. cbn [negb]. rewrite Hparse, Hs. cbn [Cohere.bind].
  rewrite Hh. cbn [Cohere.bind]. rewrite Ha. cbn [Cohere.bind].
  rewrite Hm. cbn [Cohere.bind]. rewrite Hp. reflexivity.
Qed.

Lemma fenced_answer_is_decoded_witness :
  Cohere.outcome
    (Cohere.extractClinicalData Inputs.a_key Inputs.answering_chat
       Fence.replaceOpeningFence Fence.replaceClosingFence (fun t => t) unit
       (fun _ => Some tt) (fun _ _ => Cohere.Normal tt) (fun _ => false)
       (fun _ => None) (fun _ => []) (lit "fever")) =
  Cohere.Normal Cohere.emptyClinicalData.
Proof.
  exact (fenced_answer_is_decoded Inputs.a_key Inputs.answering_chat
           (fun t => t) unit (fun _ => Some tt) (fun _ _ => Cohere.Normal tt)
           (fun _ => false) (fun _ => None) (fun _ => []) (lit "fever")
           (lit "json") (lit "{}") None tt tt tt tt tt tt
           eq_refl eq_refl eq_refl eq_refl eq_refl eq_refl
           ltac:(discriminate) eq_refl eq_refl eq_refl eq_refl eq_refl
           eq_refl).
Defined.

(** X28: the effect creates the engine object exactly when the window
    offers a constructor under one of the two names; then no error is set
    and the engine is configured continuous, with interim results, for
    en-US; otherwise the error names the missing support. *)
Theorem engine_exists_iff_constructor (window : option ScopedWindow) :
  (recognitionRef (mountEffect window initialState) <> None <->
   exists scopedWindow,
     window = Some scopedWindow /\
     (SpeechRecognition scopedWindow <> None \/
      webkitSpeechRecognition scopedWindow <> None)) /\
  (recognitionRef (mountEffect window initialState) <> None ->
   recognitionRef (mountEffect window initialState) =
     Some {| continuous := true; interimResults := true;
             lang := lit "en-US" |} /\
   error (mountEffect window initialState) = None) /\
  (recognitionRef (mountEffect window initialState) = None ->
   error (mountEffect window initialState) =
     Some (lit "Speech recognition is not supported in this browser.")).
Proof.
  unfold mountEffect, getRecognitionConstructor.
  destruct window as [[[standard|] [webkit|]]|]; cbn;
    (split; [split|split]);
    try (intros; congruence);
    try (intros _; eexists; split; [reflexivity|];
         (left; discriminate) || (right; discriminate));
    try (intros _; split; reflexivity);
    try reflexivity.
  - intros [sw [Heq [H|H]]]; injection Heq as <-; cbn in H; congruence.
  - intros [sw [Heq _]]. discriminate.
Qed.

Lemma engine_exists_iff_constructor_witness :
  recognitionRef (mountEffect Sample.webkit_window initialState) <> None.
Proof.
  apply (proj2 (proj1 (engine_exists_iff_constructor Sample.webkit_window))).
  eexists. split; [reflexivity|]. right. discriminate.
Defined.

(* ================================================================= *)
(** * Properties of the draft button *)

Lemma reachable_final_is_trimmed s :
  reachable s -> trim (finalTranscript s) = finalTranscript s.
Proof.
  intros Hreach. destruct (reachable_invariant s Hreach) as (Hf & _ & _).
  destruct (well_joined_clean _ Hf). now apply trim_id.
Qed.

(** X20: in a reachable state the handler's own guard ("Transcript is
    empty; please capture audio first.") fires exactly when finalTranscript
    is empty; then nothing is sent and clinicalData and isExtracting keep
    their values.  Whatever [extractClinicalData] does. *)
Theorem draft_guard_fires_on_empty_transcript
    (extract : jsstring -> Cohere.Settled) (s : HookState)
    (d : Draft.DraftState) :
  reachable s ->
  let run := Draft.handleGenerateDraft extract (finalTranscript s) d in
  (Draft.awaiting run = None <-> finalTranscript s = []) /\
  (finalTranscript s = [] ->
   Draft.requests run = [] /\
   Draft.settled run =
     {| Draft.clinicalData := Draft.clinicalData d;
        Draft.isExtracting := Draft.isExtracting d;
        Draft.cohereError :=
          Some (lit "Transcript is empty; please capture audio first.") |}).
Proof.
  intros Hreach. cbv zeta. unfold Draft.handleGenerateDraft.
  rewrite (reachable_final_is_trimmed s Hreach).
  destruct (finalTranscript s) as [|c t]; cbn [truthy negb Draft.awaiting].
  - repeat split.
  - split; [split; discriminate | discriminate].
Qed.

Lemma draft_guard_fires_on_empty_transcript_witness :
  Draft.awaiting
    (Draft.handleGenerateDraft
       (Inputs.extract_with Inputs.a_key Inputs.answering_chat)
       (finalTranscript Sample.mounted) Inputs.idle_draft) = None.
Proof.
  exact (proj2 (proj1 (draft_guard_fires_on_empty_transcript
                         (Inputs.extract_with Inputs.a_key
                            Inputs.answering_chat)
                         Sample.mounted Inputs.idle_draft mounted_reachable))
               eq_refl).
Defined.

Section DraftFacts.

Variable cohereKeyFromEnv : option jsstring.
Variable chat : Cohere.ChatPayload -> Cohere.completion Cohere.CohereChatResponse.
Variable replace_opening_fence : jsstring -> jsstring.
Variable replace_closing_fence : jsstring -> jsstring.
Variable toLowerCase : jsstring -> jsstring.
Variable JSValue : Type.
Variable JSON_parse : jsstring -> option JSValue.
Variable property : JSValue -> jsstring -> Cohere.completion JSValue.
Variable js_truthy : JSValue -> bool.
Variable as_array : JSValue -> option (list JSValue).
Variable to_string : JSValue -> jsstring.

Local Abbreviation extract :=
  (Cohere.extractClinicalData cohereKeyFromEnv chat replace_opening_fence
     replace_closing_fence toLowerCase JSValue JSON_parse property js_truthy
     as_array to_string).

(** X21: when the draft button is enabled in a reachable state and a key is
    configured, one request goes out and its message is exactly the
    finalTranscript on display; while it is awaited isExtracting is true and
    the previous error is gone; afterwards isExtracting is false. *)
Theorem enabled_draft_sends_final_transcript
    (s : HookState) (d : Draft.DraftState) :
  reachable s ->
  Draft.draftDisabled s d = false ->
  truthy (Cohere.COHERE_API_KEY cohereKeyFromEnv) = true ->
  let run := Draft.handleGenerateDraft extract (finalTranscript s) d in
  Draft.requests run =
    [ {| Cohere.model := lit "command-a-03-2025";
         Cohere.preamble := Cohere.systemPrompt;
         Cohere.payload_message := finalTranscript s |} ] /\
  Draft.awaiting run =
    Some {| Draft.clinicalData := Draft.clinicalData d;
            Draft.isExtracting := true; Draft.cohereError := None |} /\
  Draft.isExtracting (Draft.settled run) = false.
Proof.
  intros Hreach Henabled Hkey. cbv zeta.
  unfold Draft.draftDisabled in Henabled.
  apply orb_false_iff in Henabled. destruct Henabled as [Hfinal _].
  apply negb_false_iff in Hfinal.
  pose proof (reachable_final_is_trimmed s Hreach) as Htrim.
  assert (Hnonblank : truthy (trim (finalTranscript s)) = true)
    by now rewrite Htrim.
  unfold Draft.handleGenerateDraft. rewrite Hnonblank. cbn [negb].
  rewrite (extract_unfold_nonblank cohereKeyFromEnv chat replace_opening_fence
             replace_closing_fence toLowerCase JSValue JSON_parse property
             js_truthy as_array to_string _ Hnonblank).
  rewrite Hkey, Htrim.
  cbn [Draft.requests Draft.awaiting Draft.settled Cohere.api_calls
       Cohere.outcome].
  split; [reflexivity | split; [reflexivity|]].
  destruct (Cohere.rethrow _) as [clinical|[message|]]; reflexivity.
Qed.

(** X22: without a configured key, pressing the button in a reachable state
    with a transcript sends nothing, shows the missing-key error, keeps the
    clinical data that were there and ends with isExtracting false. *)
Theorem draft_without_key_shows_error (s : HookState) (d : Draft.DraftState) :
  reachable s ->
  finalTranscript s <> [] ->
  Cohere.COHERE_API_KEY cohereKeyFromEnv = [] ->
  let run := Draft.handleGenerateDraft extract (finalTranscript s) d in
  Draft.requests run = [] /\
  Draft.settled run =
    {| Draft.clinicalData := Draft.clinicalData d;
       Draft.isExtracting := false;
       Draft.cohereError :=
         Some (lit "Missing Cohere API key (set COHERE_API_KEY)") |}.
Proof.
  intros Hreach Hfinal Hkey. cbv zeta.
  pose proof (reachable_final_is_trimmed s Hreach) as Htrim.
  assert (Hnonblank : truthy (trim (finalTranscript s)) = true).
  { rewrite Htrim. destruct (finalTranscript s); [congruence | reflexivity]. }
  unfold Draft.handleGenerateDraft. rewrite Hnonblank. cbn [negb].
  rewrite (extract_unfold_nonblank cohereKeyFromEnv chat replace_opening_fence
             replace_closing_fence toLowerCase JSValue JSON_parse property
             js_truthy as_array to_string _ Hnonblank).
  rewrite Hkey. split; reflexivity.
Qed.

End DraftFacts.

Lemma enabled_draft_sends_final_transcript_witness :
  List.map Cohere.payload_message
    (Draft.requests
       (Draft.handleGenerateDraft
          (Inputs.extract_with Inputs.a_key Inputs.answering_chat)
          (finalTranscript Sample.listening) Inputs.idle_draft))
    = [lit "chest pain"].
Proof.
  exact (f_equal (List.map Cohere.payload_message)
           (proj1 (ltac:(at_sample_env enabled_draft_sends_final_transcript
                           Inputs.a_key Inputs.answering_chat)
                     Sample.listening Inputs.idle_draft listening_reachable
                     eq_refl eq_refl))).
Defined.

Lemma draft_without_key_shows_error_witness :
  Draft.cohereError
    (Draft.settled
       (Draft.handleGenerateDraft
          (Inputs.extract_with Sample.no_key Inputs.answering_chat)
          (finalTranscript Sample.listening) Inputs.idle_draft))
    = Some (lit "Missing Cohere API key (set COHERE_API_KEY)").
Proof.
  exact (f_equal (fun d => Draft.cohereError d)
           (proj2 (ltac:(at_sample_env draft_without_key_shows_error
                           Sample.no_key Inputs.answering_chat)
                     Sample.listening Inputs.idle_draft listening_reachable
                     ltac:(discriminate) eq_refl))).
Defined.

(* ================================================================= *)
(** * Properties of the relay script *)

Lemma stdout_text_app (a b : list Relay.Effect) :
  Relay.stdout_text (a ++ b) = Relay.stdout_text a ++ Relay.stdout_text b.
Proof. unfold Relay.stdout_text. apply List.flat_map_app. Qed.

Lemma stdout_text_log_result (result : Relay.TranscriptResult) :
  Relay.stdout_text (Relay.log_result result) = Relay.render result.
Proof.
  unfold Relay.log_result, Relay.render.
  destruct (Relay.is_word result), (Relay.is_eos result); cbn;
    now rewrite ?List.app_nil_r.
Qed.

Lemma log_add_transcript (rs : list Relay.TranscriptResult) :
  Relay.logTranscript (Relay.add_transcript rs) =
    List.flat_map Relay.log_result rs.
Proof. reflexivity. Qed.

(** X23: for an AddTranscript message the standard output receives, result
    by result and in order, a space if the result is a word, its first
    alternative's content if it has one, and a line break if it ends a
    sentence; nothing goes to the standard error and the process is not
    stopped. *)
Theorem add_transcript_output (data : Relay.MessageData) :
  Relay.message data = lit "AddTranscript" ->
  Relay.stdout_text (Relay.logTranscript data) =
    List.flat_map Relay.render
      (match Relay.results data with Some rs => rs | None => [] end) /\
  List.Forall
    (fun e => match e with Relay.StdoutWrite _ => True | _ => False end)
    (Relay.logTranscript data).
Proof.
  intros Hmsg. unfold Relay.logTranscript. rewrite Hmsg.
  change (Relay.same (lit "AddTranscript") (lit "AddTranscript")) with true.
  cbv iota.
  induction (match Relay.results data with Some rs => rs | None => [] end)
    as [|result rs [IHtext IHall]]; [split; [reflexivity | constructor]|].
  cbn [List.flat_map]. split.
  - now rewrite stdout_text_app, stdout_text_log_result, IHtext.
  - apply List.Forall_app. split; [|exact IHall].
    unfold Relay.log_result.
    destruct (Relay.is_word result), (Relay.is_eos result);
      repeat constructor.
Qed.

Lemma add_transcript_output_witness :
  Relay.stdout_text
    (Relay.logTranscript
       (Relay.add_transcript
          [Relay.word (lit "chest"); Relay.word (lit "pain");
           Inputs.punctuation (lit ".") true]))
    = lit " chest pain." ++ [10%N].
Proof.
  exact (proj1 (add_transcript_output
                  (Relay.add_transcript
                     [Relay.word (lit "chest"); Relay.word (lit "pain");
                      Inputs.punctuation (lit ".") true]) eq_refl)).
Defined.

(** X24: a message of words only prints each word after one space: the
    output is a space followed by the space-joined words (and nothing for
    no words), so lines printed by successive messages continue each
    other. *)
Theorem words_are_printed_space_separated (words : list jsstring) :
  Relay.stdout_text
    (Relay.logTranscript (Relay.add_transcript (List.map Relay.word words))) =
  match words with
  | [] => []
  | _ :: _ => space :: join_space words
  end.
Proof.
  rewrite log_add_transcript.
  assert (Hgen : Relay.stdout_text
                   (List.flat_map Relay.log_result (List.map Relay.word words))
                 = List.flat_map (fun w => space :: w) words).
  { induction words as [|w ws IH]; [reflexivity|].
    cbn [List.map List.flat_map]. rewrite stdout_text_app, IH.
    rewrite stdout_text_log_result. unfold Relay.render. cbn.
    now rewrite List.app_nil_r. }
  rewrite Hgen. clear Hgen.
  induction words as [|w ws IH]; [reflexivity|].
  cbn [List.flat_map]. destruct ws as [|v ws].
  - cbn. now rewrite List.app_nil_r.
  - rewrite IH. rewrite (join_space_cons w (v :: ws)) by congruence.
    reflexivity.
Qed.

(** X25: results may come in one AddTranscript message or in two: the
    effects of a message with the results of both are the effects of the
    first followed by the effects of the second. *)
Theorem add_transcript_splits (first second : list Relay.TranscriptResult) :
  Relay.logTranscript (Relay.add_transcript (first ++ second)) =
    Relay.logTranscript (Relay.add_transcript first) ++
    Relay.logTranscript (Relay.add_transcript second).
Proof. rewrite !log_add_transcript. apply List.flat_map_app. Qed.

Lemma same_true (a b : jsstring) : Relay.same a b = true -> a = b.
Proof. unfold Relay.same. now destruct (List.list_eq_dec N.eq_dec a b). Qed.

Lemma exits_are_end_or_error (data : Relay.MessageData) (code : Z) :
  List.In (Relay.StopAndExit code) (Relay.logTranscript data) ->
  (Relay.message data = lit "EndOfTranscript" /\ code = 0%Z) \/
  (Relay.message data = lit "Error" /\ code = 1%Z).
Proof.
  unfold Relay.logTranscript.
  destruct (Relay.same (Relay.message data) (lit "AddTranscript")) eqn:Hadd.
  - intros Hin. exfalso.
    induction (match Relay.results data with Some rs => rs | None => [] end)
      as [|result rs IH]; [exact Hin|].
    cbn [List.flat_map] in Hin. apply List.in_app_or in Hin.
    destruct Hin as [Hin|Hin]; [|exact (IH Hin)].
    unfold Relay.log_result in Hin.
    destruct (Relay.is_word result), (Relay.is_eos result); cbn in Hin;
      intuition discriminate.
  - destruct (Relay.same (Relay.message data) (lit "EndOfTranscript")) eqn:Hend.
    + intros [H|[H|[]]]; [discriminate|]. injection H as <-.
      left. split; [now apply same_true | reflexivity].
    + destruct (Relay.same (Relay.message data) (lit "Error")) eqn:Herr.
      * intros [H|[H|[]]]; [discriminate|]. injection H as <-.
        right. split; [now apply same_true | reflexivity].
      * intros [].
Qed.

(** X26: the handler stops the client and exits for two messages and only
    for them.  For EndOfTranscript it writes a line break to the standard
    output, then stops the client and exits with code 0; for Error it writes
    the rendered message between two line breaks to the standard error, then
    stops the client and exits with code 1; for any message other than these
    two and AddTranscript it does nothing; and whenever it stops and exits,
    the message is one of the two, with that code. *)
Theorem exit_only_on_end_or_error (data : Relay.MessageData) :
  (Relay.message data = lit "EndOfTranscript" ->
   Relay.logTranscript data =
     [Relay.StdoutWrite [10%N]; Relay.StopAndExit 0]) /\
  (Relay.message data = lit "Error" ->
   Relay.logTranscript data =
     [Relay.StderrWrite ([10%N] ++ Relay.rendered data ++ [10%N]);
      Relay.StopAndExit 1]) /\
  (Relay.message data <> lit "AddTranscript" ->
   Relay.message data <> lit "EndOfTranscript" ->
   Relay.message data <> lit "Error" ->
   Relay.logTranscript data = []) /\
  (forall code,
     List.In (Relay.StopAndExit code) (Relay.logTranscript data) ->
     (Relay.message data = lit "EndOfTranscript" /\ code = 0%Z) \/
     (Relay.message data = lit "Error" /\ code = 1%Z)).
Proof.
  split; [|split; [|split]].
  - intros Hmsg. unfold Relay.logTranscript. now rewrite Hmsg.
  - intros Hmsg. unfold Relay.logTranscript. now rewrite Hmsg.
  - intros Hadd Hend Herr. unfold Relay.logTranscript, Relay.same.
    destruct (List.list_eq_dec N.eq_dec (Relay.message data)
                (lit "AddTranscript")); [contradiction|].
    destruct (List.list_eq_dec N.eq_dec (Relay.message data)
                (lit "EndOfTranscript")); [contradiction|].
    destruct (List.list_eq_dec N.eq_dec (Relay.message data) (lit "Error"));
      [contradiction | reflexivity].
  - intros code. apply exits_are_end_or_error.
Qed.

Lemma exit_only_on_end_or_error_witness :
  Relay.logTranscript
    {| Relay.message := lit "Error"; Relay.results := None;
       Relay.rendered := lit "{}" |} =
    [Relay.StderrWrite ([10%N] ++ lit "{}" ++ [10%N]); Relay.StopAndExit 1] /\
  Relay.logTranscript
    {| Relay.message := lit "EndOfTranscript"; Relay.results := None;
       Relay.rendered := lit "{}" |} =
    [Relay.StdoutWrite [10%N]; Relay.StopAndExit 0].
Proof.
  split.
  - exact (proj1 (proj2 (exit_only_on_end_or_error
                           {| Relay.message := lit "Error";
                              Relay.results := None;
                              Relay.rendered := lit "{}" |})) eq_refl).
  - exact (proj1 (exit_only_on_end_or_error
                    {| Relay.message := lit "EndOfTranscript";
                       Relay.results := None;
                       Relay.rendered := lit "{}" |}) eq_refl).
Defined.
